(** * Session tokens and entitlement data of the HTTP Toolkit UI

    A shallow embedding of the authentication module of the UI
    (the file with [showLoginDialog], [logOut], [setTokens],
    [refreshToken], [getToken], [getLastUserData], [getLatestUserData],
    [parseUserData] and [requestUserData]) and of the sidebar component.

    Conventions of the embedding:
    - a number of the language is an integer (instants and durations
      are whole milliseconds) or one of NaN, Infinity and -Infinity
      ([Num.t]); what [Date.now()] returns is an integer and an input of
      every step;
    - a JavaScript string is a [string], one character per code unit;
    - [localStorage] is a finite map from keys to strings;
    - the module-level variable [tokens], the mutex, the requests sent to
      the identity provider and not yet answered, and what the module did
      to its collaborators (a trace) form the [State] of a transition
      system whose inputs are the calls and callbacks of the event loop;
    - awaited collaborators ([fetch], the token endpoint) answer with an
      [Outcome]: a value or a rejection. *)

From Stdlib Require Import ZArith NArith Ascii String List Lia.
From Stdlib Require Import DecimalString DecimalZ DecimalPos DecimalFacts.
From stdpp Require Import base option list gmap strings.

Import ListNotations.

#[local] Set Warnings "-register-all".

(** ** Numbers

    A number of the language as far as the module computes with one: an
    integer, or one of the three values that are not finite.  A property
    that is missing where a number is expected, like [expiresIn] in the
    answer of the identity provider, makes [expiresIn * 1000] the value
    NaN. *)
Module Num.

Inductive t :=
| Finite (z : Z)
| NaN
| PosInfinity
| NegInfinity.

Definition opp (x : t) : t :=
  match x with
  | Finite z => Finite (- z)
  | NaN => NaN
  | PosInfinity => NegInfinity
  | NegInfinity => PosInfinity
  end.

Definition add (x y : t) : t :=
  match x, y with
  | NaN, _ | _, NaN => NaN
  | Finite a, Finite b => Finite (a + b)
  | PosInfinity, NegInfinity | NegInfinity, PosInfinity => NaN
  | PosInfinity, _ | _, PosInfinity => PosInfinity
  | NegInfinity, _ | _, NegInfinity => NegInfinity
  end.

Definition sub (x y : t) : t := add x (opp y).

Definition mul (x y : t) : t :=
  match x, y with
  | NaN, _ | _, NaN => NaN
  | Finite a, Finite b => Finite (a * b)
  | PosInfinity, Finite b | Finite b, PosInfinity =>
      if (b =? 0)%Z then NaN else if (0 <? b)%Z then PosInfinity else NegInfinity
  | NegInfinity, Finite b | Finite b, NegInfinity =>
      if (b =? 0)%Z then NaN else if (0 <? b)%Z then NegInfinity else PosInfinity
  | PosInfinity, PosInfinity | NegInfinity, NegInfinity => PosInfinity
  | PosInfinity, NegInfinity | NegInfinity, PosInfinity => NegInfinity
  end.

(** [x < y]: false as soon as one side is NaN. *)
Definition ltb (x y : t) : bool :=
  match x, y with
  | NaN, _ | _, NaN => false
  | Finite a, Finite b => (a <? b)%Z
  | _, NegInfinity => false
  | NegInfinity, _ => true
  | PosInfinity, _ => false
  | Finite _, PosInfinity => true
  end.

(** [x > y]. *)
Definition gtb (x y : t) : bool := ltb y x.

(** [x <= y]: false as soon as one side is NaN. *)
Definition leb (x y : t) : bool :=
  match x, y with
  | NaN, _ | _, NaN => false
  | Finite a, Finite b => (a <=? b)%Z
  | NegInfinity, _ => true
  | _, PosInfinity => true
  | _, NegInfinity => false
  | PosInfinity, _ => false
  end.

End Num.

(** ** The JSON built-ins

    [JSON.stringify] and [JSON.parse] are built-ins of the language, not
    code of the module.  They are modelled after ECMA-262 (QuoteJSONString,
    the JSON grammar) for the numbers of [Num] and strings of 8-bit code
    units.  An integer is written in decimal digits, as the language does
    for a magnitude below 1e21, and a number that is not finite is
    written as null; a number with a fraction or an exponent, or an
    escape above code unit 255, is outside this model and makes [parse]
    answer [None]. *)
Module JSON.

#[local] Open Scope string_scope.

Inductive value :=
| Null
| Bool (b : bool)
| Number (n : Num.t)
| Str (s : string)
| Array (l : list value)
| Object (members : list (string * value)).

Definition dq : ascii := "034"%char.
Definition bs : ascii := "092"%char.

(** *** Writing *)

Definition hex_digit (n : N) : ascii :=
  ascii_of_N (if (n <? 10)%N then 48 + n else 87 + n)%N.

Definition quote_char (c : ascii) : string :=
  let n := N_of_ascii c in
  if Ascii.eqb c dq then String bs (String dq EmptyString)
  else if Ascii.eqb c bs then String bs (String bs EmptyString)
  else if (n =? 8)%N then String bs "b"
  else if (n =? 9)%N then String bs "t"
  else if (n =? 10)%N then String bs "n"
  else if (n =? 12)%N then String bs "f"
  else if (n =? 13)%N then String bs "r"
  else if (n <? 32)%N then
    String bs (String "u" (String "0" (String "0"
      (String (hex_digit (n / 16)) (String (hex_digit (n mod 16)) EmptyString)))))
  else String c EmptyString.

Fixpoint quote_chars (s : string) : string :=
  match s with
  | EmptyString => EmptyString
  | String c s' => quote_char c ++ quote_chars s'
  end.

Definition quote (s : string) : string :=
  String dq (quote_chars s ++ String dq EmptyString).

Definition number_to_string (z : Z) : string :=
  NilZero.string_of_int (Z.to_int z).

(** SerializeJSONProperty: a number that is not finite is written as
    null. *)
Definition number_text (n : Num.t) : string :=
  match n with
  | Num.Finite z => number_to_string z
  | _ => "null"
  end.

Fixpoint stringify (v : value) : string :=
  match v with
  | Null => "null"
  | Bool true => "true"
  | Bool false => "false"
  | Number n => number_text n
  | Str s => quote s
  | Array l =>
      "[" ++ (fix elements (l : list value) : string :=
                match l with
                | [] => EmptyString
                | [x] => stringify x
                | x :: l' => stringify x ++ "," ++ elements l'
                end) l ++ "]"
  | Object m =>
      "{" ++ (fix members (m : list (string * value)) : string :=
                match m with
                | [] => EmptyString
                | [(k, x)] => quote k ++ ":" ++ stringify x
                | (k, x) :: m' => quote k ++ ":" ++ stringify x ++ "," ++ members m'
                end) m ++ "}"
  end.

(** *** Reading *)

Definition is_ws (c : ascii) : bool :=
  let n := N_of_ascii c in
  ((n =? 32) || (n =? 9) || (n =? 10) || (n =? 13))%N.

Fixpoint skip_ws (s : string) : string :=
  match s with
  | EmptyString => EmptyString
  | String c s' => if is_ws c then skip_ws s' else s
  end.

Definition hex_value (c : ascii) : option N :=
  let n := N_of_ascii c in
  if ((48 <=? n) && (n <=? 57))%N then Some (n - 48)%N
  else if ((97 <=? n) && (n <=? 102))%N then Some (n - 87)%N
  else if ((65 <=? n) && (n <=? 70))%N then Some (n - 55)%N
  else None.

Definition unescape (c : ascii) : option ascii :=
  if Ascii.eqb c dq then Some dq
  else if Ascii.eqb c bs then Some bs
  else if Ascii.eqb c "/" then Some "/"%char
  else if Ascii.eqb c "b" then Some "008"%char
  else if Ascii.eqb c "t" then Some "009"%char
  else if Ascii.eqb c "n" then Some "010"%char
  else if Ascii.eqb c "f" then Some "012"%char
  else if Ascii.eqb c "r" then Some "013"%char
  else None.

(** The characters of a string literal after its opening quote, up to
    and including the closing quote. *)
Fixpoint parse_chars (s : string) : option (string * string) :=
  match s with
  | EmptyString => None
  | String c s1 =>
      if Ascii.eqb c dq then Some (EmptyString, s1)
      else if Ascii.eqb c bs then
        match s1 with
        | EmptyString => None
        | String e s2 =>
            if Ascii.eqb e "u" then
              match s2 with
              | String h1 (String h2 (String h3 (String h4 s3))) =>
                  match hex_value h1, hex_value h2, hex_value h3, hex_value h4 with
                  | Some a, Some b, Some c', Some d =>
                      let n := (((a * 16 + b) * 16 + c') * 16 + d)%N in
                      if (n <? 256)%N then
                        match parse_chars s3 with
                        | Some (str, rest) => Some (String (ascii_of_N n) str, rest)
                        | None => None
                        end
                      else None
                  | _, _, _, _ => None
                  end
              | _ => None
              end
            else
              match unescape e with
              | Some ch =>
                  match parse_chars s2 with
                  | Some (str, rest) => Some (String ch str, rest)
                  | None => None
                  end
              | None => None
              end
        end
      else if (N_of_ascii c <? 32)%N then None
      else
        match parse_chars s1 with
        | Some (str, rest) => Some (String c str, rest)
        | None => None
        end
  end.

Definition is_digit (c : ascii) : bool :=
  let n := N_of_ascii c in ((48 <=? n) && (n <=? 57))%N.

Definition is_number_start (c : ascii) : bool :=
  Ascii.eqb c "-" || is_digit c.

Fixpoint parse_digits (s : string) : Decimal.uint * string :=
  match s with
  | EmptyString => (Decimal.Nil, EmptyString)
  | String c s' =>
      let '(d, rest) := parse_digits s' in
      match uint_of_char c (Some d) with
      | Some d' => (d', rest)
      | None => (Decimal.Nil, s)
      end
  end.

Definition starts_fraction (s : string) : bool :=
  match s with
  | String c _ => Ascii.eqb c "." || Ascii.eqb c "e" || Ascii.eqb c "E"
  | EmptyString => false
  end.

Definition parse_number (s : string) : option (Z * string) :=
  let '(negative, s1) :=
    match s with
    | String c s' => if Ascii.eqb c "-" then (true, s') else (false, s)
    | EmptyString => (false, s)
    end in
  let '(d, rest) := parse_digits s1 in
  match d with
  | Decimal.Nil => None
  | Decimal.D0 (Decimal.D0 _ | Decimal.D1 _ | Decimal.D2 _ | Decimal.D3 _
               | Decimal.D4 _ | Decimal.D5 _ | Decimal.D6 _ | Decimal.D7 _
               | Decimal.D8 _ | Decimal.D9 _) => None
  | _ =>
      if starts_fraction rest then None
      else Some (Z.of_int (if negative then Decimal.Neg d else Decimal.Pos d), rest)
  end.

Fixpoint strip_prefix (p s : string) : option string :=
  match p, s with
  | EmptyString, _ => Some s
  | String a p', String b s' => if Ascii.eqb a b then strip_prefix p' s' else None
  | String _ _, EmptyString => None
  end.

Fixpoint parse_value (fuel : nat) (s : string) {struct fuel}
  : option (value * string) :=
  match fuel with
  | O => None
  | S fuel =>
      match skip_ws s with
      | EmptyString => None
      | String c s1 as s0 =>
          if is_number_start c then
            match parse_number s0 with
            | Some (z, rest) => Some (Number (Num.Finite z), rest)
            | None => None
            end
          else if Ascii.eqb c dq then
            match parse_chars s1 with
            | Some (str, rest) => Some (Str str, rest)
            | None => None
            end
          else if Ascii.eqb c "{" then
            match skip_ws s1 with
            | EmptyString => None
            | String c2 rest as s2 =>
                if Ascii.eqb c2 "}" then Some (Object [], rest)
                else
                  match parse_members fuel s2 with
                  | Some (m, rest') => Some (Object m, rest')
                  | None => None
                  end
            end
          else if Ascii.eqb c "[" then
            match skip_ws s1 with
            | EmptyString => None
            | String c2 rest as s2 =>
                if Ascii.eqb c2 "]" then Some (Array [], rest)
                else
                  match parse_elements fuel s2 with
                  | Some (l, rest') => Some (Array l, rest')
                  | None => None
                  end
            end
          else
            match strip_prefix "null" s0 with
            | Some rest => Some (Null, rest)
            | None =>
                match strip_prefix "true" s0 with
                | Some rest => Some (Bool true, rest)
                | None =>
                    match strip_prefix "false" s0 with
                    | Some rest => Some (Bool false, rest)
                    | None => None
                    end
                end
            end
      end
  end
with parse_members (fuel : nat) (s : string) {struct fuel}
  : option (list (string * value) * string) :=
  match fuel with
  | O => None
  | S fuel =>
      match skip_ws s with
      | EmptyString => None
      | String c s1 =>
          if Ascii.eqb c dq then
            match parse_chars s1 with
            | None => None
            | Some (key, s2) =>
                match skip_ws s2 with
                | EmptyString => None
                | String c3 s3 =>
                    if Ascii.eqb c3 ":" then
                      match parse_value fuel s3 with
                      | None => None
                      | Some (v, s4) =>
                          match skip_ws s4 with
                          | EmptyString => None
                          | String c5 s5 =>
                              if Ascii.eqb c5 "," then
                                match parse_members fuel s5 with
                                | Some (m, rest) => Some ((key, v) :: m, rest)
                                | None => None
                                end
                              else if Ascii.eqb c5 "}" then Some ([(key, v)], s5)
                              else None
                          end
                      end
                    else None
                end
            end
          else None
      end
  end
with parse_elements (fuel : nat) (s : string) {struct fuel}
  : option (list value * string) :=
  match fuel with
  | O => None
  | S fuel =>
      match parse_value fuel s with
      | None => None
      | Some (v, s1) =>
          match skip_ws s1 with
          | EmptyString => None
          | String c s2 =>
              if Ascii.eqb c "," then
                match parse_elements fuel s2 with
                | Some (l, rest) => Some (v :: l, rest)
                | None => None
                end
              else if Ascii.eqb c "]" then Some ([v], s2)
              else None
          end
      end
  end.

(** [JSON.parse]: one value, then nothing but white space.  [None] is a
    SyntaxError (or a document outside the model). *)
Definition parse (s : string) : option value :=
  match parse_value (S (String.length s)) s with
  | Some (v, rest) =>
      match skip_ws rest with
      | EmptyString => Some v
      | String _ _ => None
      end
  | None => None
  end.

(** Digits as the JSON grammar wants them: at least one, and no zero
    in front of another digit. *)
Definition canonical (d : Decimal.uint) : Prop :=
  match d with
  | Decimal.Nil => False
  | Decimal.D0 Decimal.Nil => True
  | Decimal.D0 _ => False
  | _ => True
  end.

(** The text after a number must not go on with a digit, a fraction or
    an exponent. *)
Definition ends_number (s : string) : Prop :=
  match s with
  | EmptyString => True
  | String c _ => is_digit c = false /\ starts_fraction s = false
  end.

End JSON.

(** ** Data of the module *)

Definition Error := string.

(** How an awaited promise settles. *)
Inductive Outcome (A : Type) :=
| Resolved (a : A)
| Rejected (e : Error).
Arguments Resolved {A} a.
Arguments Rejected {A} e.

Definition outcome_map {A B : Type} (f : A -> B) (o : Outcome A) : Outcome B :=
  match o with
  | Resolved a => Resolved (f a)
  | Rejected e => Rejected e
  end.

(** The object held by the variable [tokens] (lines 95-99). *)
Module Tokens.
Record t := mk {
  refreshToken : string;
  accessToken : string;
  accessTokenExpiry : Num.t (* time in ms *)
}.
End Tokens.

(** What the module does to its collaborators, in order. *)
Inductive Event :=
| OauthToken (request : nat) (refresh : string)
    (* auth0Client.oauthToken({ refreshToken, grantType: 'refresh_token' }, cb) *)
| GetTokenSettled (caller : nat) (o : Outcome (option string))
    (* the promise returned by getToken() to [caller] settles *)
| UnhandledRejection (e : Error)
    (* a promise nobody awaits is rejected *)
| UncaughtTypeError
    (* a callback throws: property assignment on null *)
| Emitted (event : string)        (* loginEvents.emit(event, ...) *)
| Fetched (authorization : string) (* fetch(get-app-data, { Authorization }) *)
| Reported (e : Error)            (* reportError(e) *)
| Warned.                         (* console.warn(...) *)

(** A callback waiting for, or holding, [tokenMutex]. *)
Inductive Worker :=
| SetTokensWorker (newTokens : option Tokens.t)
| GetTokenWorker (caller : nat).

(** Who is told when a request to the token endpoint is answered: the
    promise built by [refreshToken] is either awaited by the
    [runExclusive] of a [getToken] call, or by nobody. *)
Inductive Waiter :=
| Unawaited
| AwaitedBy (caller : nat).

(** What [refreshToken()] hands back: an async function always returns a
    promise, already rejected when its body throws. *)
Inductive Promise :=
| Pending (request : nat)
| RejectedWith (e : Error).

(** What the worker of [getToken] returns to [runExclusive]. *)
Inductive Returned :=
| ReturnUndefined
| ReturnToken (a : string)
| ReturnPromise (refreshPromise : option Promise).

Record State := mkState {
  tokens : option Tokens.t;
  localStorage : gmap string string;
  (** [None]: the mutex is free; [Some queue]: it is held, and [queue]
      are the workers waiting for it, first come first. *)
  tokenMutex : option (list Worker);
  requests : gmap nat Waiter;
  nextRequest : nat;
  trace : list Event
}.

Definition set_tokens (x : option Tokens.t) (st : State) : State :=
  mkState x (localStorage st) (tokenMutex st) (requests st) (nextRequest st) (trace st).
Definition set_localStorage (x : gmap string string) (st : State) : State :=
  mkState (tokens st) x (tokenMutex st) (requests st) (nextRequest st) (trace st).
Definition set_tokenMutex (x : option (list Worker)) (st : State) : State :=
  mkState (tokens st) (localStorage st) x (requests st) (nextRequest st) (trace st).
Definition set_requests (x : gmap nat Waiter) (st : State) : State :=
  mkState (tokens st) (localStorage st) (tokenMutex st) x (nextRequest st) (trace st).
Definition set_nextRequest (x : nat) (st : State) : State :=
  mkState (tokens st) (localStorage st) (tokenMutex st) (requests st) x (trace st).
Definition log (e : Event) (st : State) : State :=
  mkState (tokens st) (localStorage st) (tokenMutex st) (requests st) (nextRequest st)
          (trace st ++ [e]).

(** ** The token store *)

(** JSON.stringify(tokens): the keys come in the order of the object
    literal of the 'authenticated' listener (lines 112-116); assigning to
    a property that exists keeps its place. *)
Definition tokens_to_json (x : option Tokens.t) : JSON.value :=
  match x with
  | None => JSON.Null
  | Some t =>
      JSON.Object
        [("refreshToken"%string, JSON.Str (Tokens.refreshToken t));
         ("accessToken"%string, JSON.Str (Tokens.accessToken t));
         ("accessTokenExpiry"%string, JSON.Number (Tokens.accessTokenExpiry t))]
  end.

(** The expiry of the tokens, if any, is a finite number. *)
Definition finite_expiry (x : option Tokens.t) : Prop :=
  match x with
  | Some t => exists z, Tokens.accessTokenExpiry t = Num.Finite z
  | None => True
  end.

(** The text [JSON.stringify] writes for a token object. *)
Definition tokens_text (t : Tokens.t) : string :=
  String "{"
    (JSON.quote "refreshToken" ++ String ":"
      (JSON.quote (Tokens.refreshToken t) ++ String ","
        (JSON.quote "accessToken" ++ String ":"
          (JSON.quote (Tokens.accessToken t) ++ String ","
            (JSON.quote "accessTokenExpiry" ++ String ":"
              (JSON.number_text (Tokens.accessTokenExpiry t) ++ String "}" EmptyString)))))).

(** The value of a property of a parsed object: of several members with
    one key the last one counts. *)
Fixpoint property (key : string) (members : list (string * JSON.value))
  : option JSON.value :=
  match members with
  | [] => None
  | (k, v) :: members' =>
      match property key members' with
      | Some v' => Some v'
      | None => if String.eqb k key then Some v else None
      end
  end.

(** The parsed document seen through the declared type of [tokens];
    [None] when it has another shape.  The declared type excludes such a
    document, though the text that the module stores for an expiry that
    is not finite reads back as one: its expiry is null. *)
Definition tokens_of_json (v : JSON.value) : option (option Tokens.t) :=
  match v with
  | JSON.Null => Some None
  | JSON.Object m =>
      match property "refreshToken" m, property "accessToken" m,
            property "accessTokenExpiry" m with
      | Some (JSON.Str r), Some (JSON.Str a), Some (JSON.Number e) =>
          Some (Some (Tokens.mk r a e))
      | _, _, _ => None
      end
  | _ => None
  end.

(** Lines 95-102: the state when the module has been loaded.  A missing
    item is [null], which JSON.parse reads as the text null. *)
Definition initial (storage : gmap string string) : option State :=
  match JSON.parse (default "null"%string (storage !! "tokens"%string)) with
  | Some v =>
      match tokens_of_json v with
      | Some x => Some (mkState x storage None ∅ 0 [])
      | None => None
      end
  | None => None
  end.

(** Lines 106-107, the worker of [setTokens]. *)
Definition setTokens_worker (newTokens : option Tokens.t) (st : State) : State :=
  set_localStorage
    (<["tokens"%string := JSON.stringify (tokens_to_json newTokens)]> (localStorage st))
    (set_tokens newTokens st).

(** Lines 122-128: [refreshToken()] up to the call of the token
    endpoint.  The promise has no listener yet. *)
Definition refreshToken (st : State) : State * Promise :=
  match tokens st with
  | None => (st, RejectedWith "Can't refresh tokens if we're not logged in")
  | Some t =>
      let request := nextRequest st in
      (log (OauthToken request (Tokens.refreshToken t))
         (set_nextRequest (S request)
            (set_requests (<[request := Unawaited]> (requests st)) st)),
       Pending request)
  end.

(** Line 145: [tokens.accessTokenExpiry.valueOf() - Date.now()]. *)
Definition timeUntilExpiry (t : Tokens.t) (now : Z) : Num.t :=
  Num.sub (Tokens.accessTokenExpiry t) (Num.Finite now).

(** Lines 143-158, the worker of [getToken]: the state after it, the
    local [refreshPromise], and what it returns.  [refreshToken()] only
    sends the request, so [tokens] is still the object [t] afterwards. *)
Definition getToken_worker (now : Z) (st : State)
  : State * option Promise * Returned :=
  match tokens st with
  | None => (st, None, ReturnUndefined)
  | Some t =>
      let '(st1, refreshPromise) :=
        if Num.ltb (timeUntilExpiry t now) (Num.Finite (1000 * 60 * 10))
        then let '(st1, p) := refreshToken st in (st1, Some p)
        else (st, None) in
      if Num.gtb (timeUntilExpiry t now) (Num.Finite (1000 * 5))
      then (st1, refreshPromise, ReturnToken (Tokens.accessToken t))
      else (st1, refreshPromise, ReturnPromise refreshPromise)
  end.

(** ** The mutex

    [runExclusive] of the async-mutex package: the worker runs once the
    mutex is acquired, the mutex is given back when what the worker
    returned has settled, and waiting workers are served in the order of
    their calls. *)

(** One worker with the mutex held; [true] when it is done and the mutex
    is to be released, [false] when it awaits a request. *)
Definition run_worker (now : Z) (w : Worker) (st : State) : State * bool :=
  match w with
  | SetTokensWorker newTokens => (setTokens_worker newTokens st, true)
  | GetTokenWorker caller =>
      let '(st1, _, returned) := getToken_worker now st in
      match returned with
      | ReturnUndefined => (log (GetTokenSettled caller (Resolved None)) st1, true)
      | ReturnToken a => (log (GetTokenSettled caller (Resolved (Some a))) st1, true)
      | ReturnPromise (Some (Pending request)) =>
          (set_requests (<[request := AwaitedBy caller]> (requests st1)) st1, false)
      | ReturnPromise (Some (RejectedWith e)) =>
          (log (GetTokenSettled caller (Rejected e)) st1, true)
      | ReturnPromise None => (log (GetTokenSettled caller (Resolved None)) st1, true)
      end
  end.

(** Serve the waiting workers until one awaits or none is left. *)
Fixpoint dispatch (now : Z) (queue : list Worker) (st : State) : State :=
  match queue with
  | [] => set_tokenMutex None st
  | w :: queue' =>
      let '(st', finished) := run_worker now w (set_tokenMutex (Some queue') st) in
      if finished then dispatch now queue' st' else st'
  end.

Definition runExclusive (now : Z) (w : Worker) (st : State) : State :=
  match tokenMutex st with
  | None => dispatch now [w] st
  | Some queue => set_tokenMutex (Some (queue ++ [w])) st
  end.

Definition release (now : Z) (st : State) : State :=
  match tokenMutex st with
  | Some queue => dispatch now queue st
  | None => st
  end.

(** ** Calls and callbacks *)

(** Lines 104-109. *)
Definition setTokens (now : Z) (newTokens : option Tokens.t) (st : State) : State :=
  runExclusive now (SetTokensWorker newTokens) st.

(** Lines 141-160. *)
Definition getToken (now : Z) (caller : nat) (st : State) : State :=
  runExclusive now (GetTokenWorker caller) st.

(** Lines 87-89 with the listener of line 119. *)
Definition logOut (now : Z) (st : State) : State :=
  setTokens now None (log (Emitted "logout") st).

(** Lines 111-117, the listener of 'authenticated'. *)
Definition authenticated (now : Z) (accessToken refreshToken : string)
  (expiresIn : Num.t) (st : State) : State :=
  setTokens now
    (Some (Tokens.mk refreshToken accessToken
             (Num.add (Num.Finite now) (Num.mul expiresIn (Num.Finite 1000))))) st.

(** The promise of a request settles: its listener, if any, is the
    [runExclusive] that awaits it. *)
Definition settle (now : Z) (w : Waiter) (o : Outcome string) (st : State) : State :=
  match w with
  | Unawaited =>
      match o with
      | Resolved _ => st
      | Rejected e => log (UnhandledRejection e) st
      end
  | AwaitedBy caller =>
      release now (log (GetTokenSettled caller (outcome_map Some o)) st)
  end.

(** Lines 129-137, the callback given to the token endpoint. *)
Definition oauthCallback (now : Z) (request : nat) (reply : Error + string * Num.t)
  (st : State) : State :=
  match requests st !! request with
  | None => st
  | Some w =>
      let st0 := set_requests (delete request (requests st)) st in
      match reply with
      | inl error => settle now w (Rejected error) st0
      | inr (newAccessToken, expiresIn) =>
          match tokens st0 with
          | None => log UncaughtTypeError st0
          | Some t =>
              let t' := Tokens.mk (Tokens.refreshToken t) newAccessToken
                (Num.add (Num.Finite now) (Num.mul expiresIn (Num.Finite 1000))) in
              settle now w (Resolved newAccessToken)
                (set_localStorage
                   (<["tokens"%string := JSON.stringify (tokens_to_json (Some t'))]>
                      (localStorage st0))
                   (set_tokens (Some t') st0))
          end
      end
  end.

(** What the event loop can deliver to the token store. *)
Inductive Input :=
| CallGetToken (caller : nat)
| Authenticated (accessToken refreshToken : string) (expiresIn : Num.t)
| LogOut
| OauthReply (request : nat) (reply : Error + string * Num.t).

(** One turn of the event loop at time [now]. *)
Definition step (now : Z) (i : Input) (st : State) : State :=
  match i with
  | CallGetToken caller => getToken now caller st
  | Authenticated a r e => authenticated now a r e st
  | LogOut => logOut now st
  | OauthReply request reply => oauthCallback now request reply st
  end.

Fixpoint run (inputs : list (Z * Input)) (st : State) : State :=
  match inputs with
  | [] => st
  | (now, i) :: inputs' => run inputs' (step now i st)
  end.

(** The states the module can be in: loaded from some storage, then any
    inputs. *)
Definition reachable (st : State) : Prop :=
  exists storage st0 inputs, initial storage = Some st0 /\ run inputs st0 = st.

(** ** Entitlement data *)

(** The claims of the signed payload (lines 162-167). *)
Module AppData.
Record t := mk {
  email : string;
  subscription_id : Z;
  subscription_plan_id : Z;
  subscription_expiry : Z
}.
End AppData.

(** [new Date(ms)]: the time value is kept when it is at most
    8.64e15 ms away from the epoch, the date is invalid otherwise. *)
Inductive Date :=
| DateAt (ms : Z)
| InvalidDate.

Definition new_Date (ms : Z) : Date :=
  if (Z.abs ms <=? 8640000000000000)%Z then DateAt ms else InvalidDate.

(** The object literal of lines 224-228: [plan] is [undefined] when the
    lookup of the plan finds nothing. *)
Module Subscription.
Record t (Plan : Type) := mk {
  id : Z;
  plan : option Plan;
  expiry : Date
}.
Arguments mk {Plan} id plan expiry.
Arguments id {Plan} _.
Arguments plan {Plan} _.
Arguments expiry {Plan} _.
End Subscription.

(** Lines 169-176; an absent (or undefined) property is [None]. *)
Module User.
Record t (Plan : Type) := mk {
  email : option string;
  subscription : option (Subscription.t Plan)
}.
Arguments mk {Plan} email subscription.
Arguments email {Plan} _.
Arguments subscription {Plan} _.
Definition empty {Plan : Type} : t Plan := mk None None.
End User.

(** What [fetch] resolves with: the status of the answer and how the
    promise of [text()] settles, with the body or rejected. *)
Module Response.
Record t := mk {
  status : Z;
  text : Outcome string
}.
End Response.

(** What a call of [getLatestUserData] meets while it awaits: how
    [getToken()] settles, how [fetch] settles for a given Authorization
    header (with the answer of the entitlement endpoint, or rejected),
    what other tasks do to the storage meanwhile, and the time when the
    call is resumed. *)
Record World := mkWorld {
  token_outcome : Outcome (option string);
  fetch_outcome : string -> Outcome Response.t;
  meanwhile : gmap string string -> gmap string string;
  resumed_at : Z
}.

(** What the module takes from elsewhere.  The plan codes and their
    lookup by id are in the module './subscriptions', which is not among
    the sources: they are parameters, with what makes a plan code truthy.
    [jwt_verify now userJwt] is [jwt.verify(userJwt, AUTH0_DATA_PUBLIC_KEY,
    {algorithms, audience, issuer})] of the jsonwebtoken package at time
    [now]: the claims, or the error it throws. *)
Class Collaborators := {
  SubscriptionPlanCode : Type;
  getSubscriptionPlanCode : Z -> option SubscriptionPlanCode;
  truthy_plan : SubscriptionPlanCode -> bool;
  jwt_verify : Z -> string -> Error + AppData.t
}.

Section Entitlement.

Context {collaborators : Collaborators}.

(** [_.every(subscription)]: every property value is truthy; a Date
    object always is. *)
Definition every (s : Subscription.t SubscriptionPlanCode) : bool :=
  negb (Subscription.id s =? 0)%Z
  && match Subscription.plan s with
     | Some p => truthy_plan p
     | None => false
     end
  && true.

(** Lines 215-234; [inl e]: the function throws [e]. *)
Definition parseUserData (now : Z) (userJwt : option string)
  : Error + User.t SubscriptionPlanCode :=
  match userJwt with
  | None => inr User.empty
  | Some EmptyString => inr User.empty
  | Some jwt =>
      match jwt_verify now jwt with
      | inl e => inl e
      | inr appData =>
          let subscription :=
            Subscription.mk
              (AppData.subscription_id appData)
              (getSubscriptionPlanCode (AppData.subscription_plan_id appData))
              (new_Date (AppData.subscription_expiry appData)) in
          inr (User.mk (Some (AppData.email appData))
                       (if every subscription then Some subscription else None))
      end
  end.

(** Lines 183-190. *)
Definition getLastUserData (now : Z) (storage : gmap string string)
  : User.t SubscriptionPlanCode * list Event :=
  match parseUserData now (storage !! "last_jwt"%string) with
  | inr user => (user, [])
  | inl e => (User.empty, [Warned])
  end.

(** Lines 236-248, given how the awaited promises settle.  The status
    of the answer is not read: the promise of [text()] is returned. *)
Definition requestUserData (w : World) : Outcome string * list Event :=
  match token_outcome w with
  | Rejected e => (Rejected e, [])
  | Resolved None => (Resolved EmptyString, [])
  | Resolved (Some EmptyString) => (Resolved EmptyString, [])
  | Resolved (Some token) =>
      let authorization := ("Bearer " ++ token)%string in
      (match fetch_outcome w authorization with
       | Rejected e => Rejected e
       | Resolved appDataResponse => Response.text appDataResponse
       end, [Fetched authorization])
  end.

(** Lines 204-207, the body of [try] resumed on [storage]: what it
    returns with the storage it leaves, or the error it throws. *)
Definition getLatestUserData_try (w : World) (storage : gmap string string)
  : (Error + User.t SubscriptionPlanCode * gmap string string) * list Event :=
  let '(requested, fetched) := requestUserData w in
  match requested with
  | Rejected e => (inl e, fetched)
  | Resolved userJwt =>
      match parseUserData (resumed_at w) (Some userJwt) with
      | inl e => (inl e, fetched)
      | inr userData =>
          (inr (userData, <["last_jwt"%string := userJwt]> storage), fetched)
      end
  end.

(** Lines 200-213: how the returned promise settles, the storage
    afterwards and what was done on the way. *)
Definition getLatestUserData (now : Z) (w : World) (storage : gmap string string)
  : Outcome (User.t SubscriptionPlanCode) * gmap string string * list Event :=
  let '(lastUserData, warned) := getLastUserData now storage in
  let storage1 := meanwhile w storage in
  match getLatestUserData_try w storage1 with
  | (inr (userData, storage2), done) =>
      (Resolved userData, storage2, warned ++ done)
  | (inl e, done) =>
      (Resolved lastUserData, storage1,
       warned ++ done ++ [Reported e; Emitted "authorization_error"])
  end.

End Entitlement.

(** How [getToken()] settled for [caller], as the trace tells. *)
Fixpoint settled (caller : nat) (events : list Event) : option (Outcome (option string)) :=
  match events with
  | [] => None
  | GetTokenSettled c o :: events' =>
      if Nat.eqb c caller then Some o else settled caller events'
  | _ :: events' => settled caller events'
  end.

(** ** Statements about the token store *)

(** A request whose answer a [getToken] call awaits with the mutex held. *)
Definition awaited (st : State) (request : nat) : Prop :=
  exists caller, requests st !! request = Some (AwaitedBy caller).

(** Every request sent so far has a number below the next one. *)
Definition fresh (st : State) : Prop :=
  forall r, is_Some (requests st !! r) -> r < nextRequest st.

(** No [getToken] call awaits a request. *)
Definition none_awaited (st : State) : Prop :=
  forall r, ~ awaited st r.

(** What holds between two turns of the event loop. *)
Record Inv (st : State) : Prop := mkInv {
  inv_fresh : fresh st;
  inv_unique : forall r1 r2, awaited st r1 -> awaited st r2 -> r1 = r2;
  inv_held : forall r, awaited st r -> tokenMutex st <> None /\ tokens st <> None;
  inv_free : tokenMutex st <> None -> exists r, awaited st r
}.

(** The storage holds the text of the tokens that are in memory. *)
Definition stored (st : State) : Prop :=
  localStorage st !! "tokens"%string
  = Some (JSON.stringify (tokens_to_json (tokens st))).

(** From [st] to [st'] the tokens and the storage are untouched, or they
    have been written together. *)
Definition written_together (st st' : State) : Prop :=
  (tokens st' = tokens st /\ localStorage st' = localStorage st) \/ stored st'.

(** The input is the answer to [request]. *)
Definition answers (request : nat) (i : Input) : bool :=
  match i with
  | OauthReply r _ => Nat.eqb r request
  | _ => false
  end.

(** Inputs among which [request] is not answered. *)
Definition unanswered (request : nat) (inputs : list (Z * Input)) : bool :=
  forallb (fun x => negb (answers request (snd x))) inputs.

(** No [getToken()] promise settles in these events. *)
Definition nobody_settled (events : list Event) : Prop :=
  forall caller o, ~ In (GetTokenSettled caller o) events.

(** How [getToken()] settles when the token endpoint answers [reply]
    to the refresh it awaits. *)
Definition refreshed (reply : Error + string * Num.t) : Outcome (option string) :=
  match reply with
  | inl error => Rejected error
  | inr (newAccessToken, _) => Resolved (Some newAccessToken)
  end.

(** The answer of the token endpoint changes [accessToken] or
    [accessTokenExpiry] only in a state where the mutex is held. *)
Definition mutation_under_mutex : Prop :=
  forall st now request reply,
    reachable st ->
    tokens (oauthCallback now request reply st) <> tokens st ->
    tokenMutex st <> None.

(** At most one refresh is in flight. *)
Definition one_refresh_in_flight : Prop :=
  forall st, reachable st -> size (requests st) <= 1.

(** The module itself logged or reported something among these events. *)
Definition logged_or_reported (events : list Event) : Prop :=
  exists ev, In ev events /\
    match ev with
    | Reported _ | Warned => True
    | _ => False
    end.

(** A stored session: refresh token R, access token A, which expires
    1000 seconds after the epoch. *)
Definition example_tokens : Tokens.t := Tokens.mk "R" "A" (Num.Finite 1000000).

Definition example_storage : gmap string string :=
  {[ "tokens"%string := JSON.stringify (tokens_to_json (Some example_tokens)) ]}.

Definition example_state : State :=
  mkState (Some example_tokens) example_storage None ∅ 0 [].

(** The module loaded from an empty storage: nobody is logged in. *)
Definition logged_out_state : State := mkState None ∅ None ∅ 0 [].


(** A verifier that accepts the text good.jwt alone, for a user with
    subscription 5 on plan 9, and a lookup that knows plan 7 alone. *)
Definition example_verify (now : Z) (jwt : string) : Error + AppData.t :=
  if String.eqb jwt "good.jwt"
  then inr (AppData.mk "a@b.c" 5 9 1700000000000)
  else inl "invalid signature"%string.

Definition example_plan (id : Z) : option string :=
  if (id =? 7)%Z then Some "pro-monthly"%string else None.

Definition example_truthy (plan : string) : bool :=
  negb (String.eqb plan EmptyString).

#[local] Instance example_collaborators : Collaborators := {
  SubscriptionPlanCode := string;
  getSubscriptionPlanCode := example_plan;
  truthy_plan := example_truthy;
  jwt_verify := example_verify
}.



(** ** Statements about queued calls *)

(** [Date.now() + (expiresIn * 1000)] of lines 115 and 133. *)
Definition expiry_after (now : Z) (expiresIn : Num.t) : Num.t :=
  Num.add (Num.Finite now) (Num.mul expiresIn (Num.Finite 1000)).

(** The inputs of [callers] calling [getToken()], each at its time. *)
Definition getToken_calls (calls : list (Z * nat)) : list (Z * Input) :=
  map (fun x => (fst x, CallGetToken (snd x))) calls.

(** What a login or a logout asks [setTokens] to store; [None] for the
    other inputs. *)
Definition requested (x : Z * Input) : option (option Tokens.t) :=
  match snd x with
  | Authenticated a r e => Some (Some (Tokens.mk r a (expiry_after (fst x) e)))
  | LogOut => Some None
  | _ => None
  end.

(** The inputs are logins and logouts only. *)
Definition logins_and_logouts (inputs : list (Z * Input)) : bool :=
  forallb (fun x => match requested x with Some _ => true | None => false end) inputs.

(** What the last of the inputs asks to store, [x] when there is none. *)
Definition last_requested (inputs : list (Z * Input)) (x : option Tokens.t)
  : option Tokens.t :=
  fold_left (fun acc i => match requested i with Some y => y | None => acc end) inputs x.

(** The workers that logins and logouts put in the queue. *)
Definition requested_workers (inputs : list (Z * Input)) : list Worker :=
  flat_map (fun x => match requested x with
                     | Some y => [SetTokensWorker y]
                     | None => []
                     end) inputs.

(** The tokens a successful answer of the token endpoint writes over [t]. *)
Definition refreshed_tokens (now : Z) (t : Tokens.t) (reply : Error + string * Num.t)
  : Tokens.t :=
  match reply with
  | inl _ => t
  | inr (a, expiresIn) => Tokens.mk (Tokens.refreshToken t) a (expiry_after now expiresIn)
  end.

(** The storage after the writes of the logins and logouts among the
    inputs. *)
Definition storage_after (inputs : list (Z * Input)) (storage : gmap string string)
  : gmap string string :=
  fold_left (fun s x => match requested x with
                        | Some y => <["tokens"%string := JSON.stringify (tokens_to_json y)]> s
                        | None => s
                        end) inputs storage.


(** The world in which every answer of the entitlement endpoint has the
    status [status], and all else is as in [w]. *)
Definition with_status (status : Z) (w : World) : World :=
  mkWorld (token_outcome w)
          (fun authorization =>
             outcome_map (fun r => Response.mk status (Response.text r))
                         (fetch_outcome w authorization))
          (meanwhile w) (resumed_at w).

(** ** The login dialog and the event bus

    [loginEvents] (line 59) is an EventEmitter of Node: [emit] calls the
    listeners registered for the event, in the order of registration,
    and a listener registered with [once] is removed when it is called.
    No listener of the module registers, removes or emits on
    [loginEvents] while it runs, so the removal is done up front.  The
    events of the widget are forwarded to [loginEvents] (lines 62-67);
    what the widget emits, and when, is an input.  The warning that the
    emitter prints once more than ten listeners are registered for one
    event is left out. *)
Module Login.

(** An event with what is emitted with it. *)
Inductive Signal :=
| SigAuthenticated (accessToken refreshToken : string) (expiresIn : Num.t)
| SigUnrecoverableError (e : Error)
| SigAuthorizationError (e : Error)
| SigHide
| SigUserDataLoaded
| SigLogout.

Definition event_of (sig : Signal) : string :=
  match sig with
  | SigAuthenticated _ _ _ => "authenticated"
  | SigUnrecoverableError _ => "unrecoverable_error"
  | SigAuthorizationError _ => "authorization_error"
  | SigHide => "hide"
  | SigUserDataLoaded => "user_data_loaded"
  | SigLogout => "logout"
  end.

(** The functions that the module registers on [loginEvents]. *)
Inductive Listener :=
| HideLock                             (* line 69: () => auth0Lock.hide() *)
| Resolve (dialog : nat) (value : bool) (* lines 79-80: () => resolve(value) *)
| Reject (dialog : nat)                (* lines 82-83: reject *)
| SetTokensFromLogin                   (* lines 111-117 *)
| SetTokensNull.                       (* line 119: () => setTokens(null) *)

Record Registration := mkRegistration {
  event : string;
  once : bool;
  listener : Listener
}.

(** The calls made to the widget. *)
Inductive LockCall :=
| Show
| Hide.

(** [dialogs]: the promise returned by each call of [showLoginDialog],
    in the order of the calls; [None] while it is pending. *)
Record Session := mkSession {
  listeners : list Registration;
  dialogs : list (option (Outcome bool));
  lock : list LockCall;
  store : State
}.

(** Lines 69, 111 and 119: the listeners that the module registers when
    it is loaded. *)
Definition module_listeners : list Registration :=
  [mkRegistration "user_data_loaded" false HideLock;
   mkRegistration "authenticated" false SetTokensFromLogin;
   mkRegistration "logout" false SetTokensNull].

(** The session once the module is loaded, with the token store [st]. *)
Definition loaded (st : State) : Session :=
  mkSession module_listeners [] [] st.

(** [resolve] or [reject] of the promise of a dialog: nothing happens
    when the promise is settled already. *)
Definition settle_dialog (dialog : nat) (o : Outcome bool) (s : Session) : Session :=
  match dialogs s !! dialog with
  | Some None =>
      mkSession (listeners s) (<[dialog := Some o]> (dialogs s)) (lock s) (store s)
  | _ => s
  end.

(** A listener called with what was emitted.  [Reject] is registered for
    the two error events only and [SetTokensFromLogin] for
    'authenticated' only. *)
Definition call (now : Z) (sig : Signal) (l : Listener) (s : Session) : Session :=
  match l, sig with
  | HideLock, _ => mkSession (listeners s) (dialogs s) (lock s ++ [Hide]) (store s)
  | Resolve dialog value, _ => settle_dialog dialog (Resolved value) s
  | Reject dialog, SigUnrecoverableError e => settle_dialog dialog (Rejected e) s
  | Reject dialog, SigAuthorizationError e => settle_dialog dialog (Rejected e) s
  | SetTokensFromLogin, SigAuthenticated accessToken refreshToken expiresIn =>
      mkSession (listeners s) (dialogs s) (lock s)
                (authenticated now accessToken refreshToken expiresIn (store s))
  | SetTokensNull, _ =>
      mkSession (listeners s) (dialogs s) (lock s) (setTokens now None (store s))
  | _, _ => s
  end.

Definition registered_for (name : string) (r : Registration) : bool :=
  String.eqb (event r) name.

(** [loginEvents.emit(event, data)]. *)
Definition emit (now : Z) (sig : Signal) (s : Session) : Session :=
  let called := List.filter (registered_for (event_of sig)) (listeners s) in
  let kept :=
    List.filter (fun r => negb (once r && registered_for (event_of sig) r))
                (listeners s) in
  fold_left (fun s' r => call now sig (listener r) s') called
            (mkSession kept (dialogs s) (lock s) (store s)).

(** The listeners that lines 79-83 register for the promise [dialog]. *)
Definition dialog_listeners (dialog : nat) : list Registration :=
  [mkRegistration "user_data_loaded" true (Resolve dialog true);
   mkRegistration "hide" true (Resolve dialog false);
   mkRegistration "unrecoverable_error" true (Reject dialog);
   mkRegistration "authorization_error" true (Reject dialog)].

(** Lines 71-85: the session afterwards and the promise returned. *)
Definition showLoginDialog (s : Session) : Session * nat :=
  let dialog := length (dialogs s) in
  (mkSession (listeners s ++ dialog_listeners dialog)
             (dialogs s ++ [None]) (lock s ++ [Show]) (store s),
   dialog).

(** Lines 87-89. *)
Definition logOut (now : Z) (s : Session) : Session :=
  emit now SigLogout s.

(** What a turn of the event loop brings: a call of [showLoginDialog],
    an event emitted on [loginEvents] (by the widget, by
    [getLatestUserData], by [logOut] or by the application), or a turn
    of the token store. *)
Inductive Turn :=
| ShowLoginDialog
| Emit (sig : Signal)
| StoreTurn (i : Input).

Definition turn (now : Z) (t : Turn) (s : Session) : Session :=
  match t with
  | ShowLoginDialog => fst (showLoginDialog s)
  | Emit sig => emit now sig s
  | StoreTurn i =>
      mkSession (listeners s) (dialogs s) (lock s) (step now i (store s))
  end.

Fixpoint run (turns : list (Z * Turn)) (s : Session) : Session :=
  match turns with
  | [] => s
  | (now, t) :: turns' => run turns' (turn now t s)
  end.

Definition reachable (s : Session) : Prop :=
  exists st turns, run turns (loaded st) = s.

(** How the first of these events settles a pending dialog; [None] for
    the events that settle none. *)
Definition verdict (sig : Signal) : option (Outcome bool) :=
  match sig with
  | SigUserDataLoaded => Some (Resolved true)
  | SigHide => Some (Resolved false)
  | SigUnrecoverableError e => Some (Rejected e)
  | SigAuthorizationError e => Some (Rejected e)
  | SigAuthenticated _ _ _ | SigLogout => None
  end.

(** A listener of one of the [dialogs] promises so far. *)
Definition placed (n : nat) (r : Registration) : Prop :=
  exists dialog, dialog < n /\ In r (dialog_listeners dialog).

(** What holds of the listeners between turns: after the three of the
    module come listeners of dialogs, and those of every pending dialog
    are all there. *)
Record Inv (s : Session) : Prop := mkInv {
  inv_listeners :
    exists onces,
      listeners s = module_listeners ++ onces
      /\ Forall (placed (length (dialogs s))) onces;
  inv_pending :
    forall dialog,
      dialogs s !! dialog = Some None ->
      forall r, In r (dialog_listeners dialog) -> In r (listeners s)
}.

(** What an event does to the promise [dialog] from [s] to [s']:
    nothing, or it settles it, pending so far, the way [verdict] says. *)
Definition settles_or_keeps (sig : Signal) (dialog : nat) (s s' : Session) : Prop :=
  dialogs s' !! dialog = dialogs s !! dialog
  \/ (dialogs s !! dialog = Some None
      /\ exists o, verdict sig = Some o /\ dialogs s' !! dialog = Some (Some o)).

(** No event among the turns settles a dialog. *)
Definition no_verdict (turns : list (Z * Turn)) : bool :=
  forallb (fun x => match snd x with
                    | Emit sig => match verdict sig with Some _ => false | None => true end
                    | _ => true
                    end) turns.

(** No turn emits the event [name]. *)
Definition not_emitted (name : string) (turns : list (Z * Turn)) : bool :=
  forallb (fun x => match snd x with
                    | Emit sig => negb (String.eqb name (event_of sig))
                    | _ => true
                    end) turns.

(** The listeners of the promise [dialog] that an emission of [sig] does
    not call. *)
Definition left_behind (sig : Signal) (dialog : nat) : list Registration :=
  List.filter (fun r => negb (registered_for (event_of sig) r)) (dialog_listeners dialog).

End Login.

(** ** The sidebar

    The component of sidebar.tsx renders, after the logo, one item for
    each page.  What is rendered is kept as data: for each item whether
    it is shown selected, what its click hands to [onSelectPage], and
    the icon and the name it shows. *)
Module Sidebar.

Record Page := mkPage {
  name : string;
  icon : list string
}.

Record Item := mkItem {
  selected : bool;
  onClick : nat;
  shown_icon : list string;
  shown_name : string
}.

(** [i === props.selectedPageIndex] for the index [i] of an item: never
    true of NaN or of an infinity. *)
Definition is_selected (i : nat) (selectedPageIndex : Num.t) : bool :=
  match selectedPageIndex with
  | Num.Finite z => (Z.of_nat i =? z)%Z
  | _ => false
  end.

(** The items of [props.pages.map((page, i) => ...)]. *)
Definition items (selectedPageIndex : Num.t) (pages : list Page) : list Item :=
  imap (fun i page =>
          mkItem (is_selected i selectedPageIndex) i (icon page) (name page))
       pages.

End Sidebar.

(** * Properties *)

(** ** Comparisons of numbers *)

Module NumFacts.

Lemma leb_5s_ltb_10min (x : Num.t) :
  Num.leb x (Num.Finite (1000 * 5)) = true ->
  Num.ltb x (Num.Finite (1000 * 60 * 10)) = true.
Proof.
  destruct x as [z| | |]; cbn [Num.leb Num.ltb]; try easy.
  intros H. apply Z.leb_le in H. apply Z.ltb_lt. lia.
Qed.

Lemma leb_not_gtb (x y : Num.t) : Num.leb x y = true -> Num.gtb x y = false.
Proof.
  unfold Num.gtb. destruct x as [a| | |], y as [b| | |]; cbn [Num.leb Num.ltb]; try easy.
  intros H. apply Z.leb_le in H. apply Z.ltb_ge. exact H.
Qed.

Lemma ltb_10min_gtb_5s (x : Num.t) :
  Num.ltb x (Num.Finite (1000 * 60 * 10)) = false ->
  Num.gtb x (Num.Finite (1000 * 5)) = false ->
  x = Num.NaN.
Proof.
  unfold Num.gtb. destruct x as [z| | |]; cbn [Num.ltb]; try easy.
  intros H1 H2. apply Z.ltb_ge in H1, H2. lia.
Qed.

Lemma sub_finite_NaN (x : Num.t) (z : Z) :
  Num.sub x (Num.Finite z) = Num.NaN -> x = Num.NaN.
Proof. destruct x; cbn; easy. Qed.

End NumFacts.

(** ** JSON: what is written is read back *)

Module JSONFacts.
Import JSON.

#[local] Open Scope string_scope.

Ltac each_char c := destruct c as [[] [] [] [] [] [] [] []].

Lemma append_cons (x : ascii) (a b : string) : String x a ++ b = String x (a ++ b).
Proof. reflexivity. Qed.

Lemma append_nil (b : string) : EmptyString ++ b = b.
Proof. reflexivity. Qed.

Lemma append_assoc (a b c : string) : (a ++ b) ++ c = a ++ (b ++ c).
Proof.
  induction a as [|x a IH]; [reflexivity |].
  rewrite !append_cons. now rewrite IH.
Qed.

Ltac flatten :=
  repeat (rewrite append_assoc || rewrite append_cons || rewrite append_nil).

Lemma parse_chars_quote_char (c : ascii) (tail : string) :
  parse_chars (quote_char c ++ tail) =
  match parse_chars tail with
  | Some (str, rest) => Some (String c str, rest)
  | None => None
  end.
Proof. each_char c; reflexivity. Qed.

Lemma parse_chars_quote_chars (s rest : string) :
  parse_chars (quote_chars s ++ String dq rest) = Some (s, rest).
Proof.
  induction s as [|c s IH]; [reflexivity |].
  cbn [quote_chars]. rewrite append_assoc, parse_chars_quote_char, IH.
  reflexivity.
Qed.

Lemma not_digit (c : ascii) (d : Decimal.uint) :
  is_digit c = false -> uint_of_char c (Some d) = None.
Proof. each_char c; intros H; try reflexivity; discriminate H. Qed.

Lemma parse_digits_end (rest : string) :
  ends_number rest -> parse_digits rest = (Decimal.Nil, rest).
Proof.
  destruct rest as [|c rest]; [reflexivity |].
  intros [H _]. cbn [parse_digits]. destruct (parse_digits rest) as [d r].
  now rewrite (not_digit c d H).
Qed.

Lemma parse_digits_print (d : Decimal.uint) (rest : string) :
  ends_number rest ->
  parse_digits (NilEmpty.string_of_uint d ++ rest) = (d, rest).
Proof.
  intros H. induction d; cbn [NilEmpty.string_of_uint]; flatten;
    [now apply parse_digits_end | ..]; cbn [parse_digits]; rewrite IHd; reflexivity.
Qed.

Lemma nzhead_not_D0 (d d' : Decimal.uint) : Decimal.nzhead d <> Decimal.D0 d'.
Proof. induction d; cbn [Decimal.nzhead]; try discriminate; exact IHd. Qed.

Lemma to_uint_head (p : positive) :
  match Pos.to_uint p with
  | Decimal.Nil | Decimal.D0 _ => False
  | _ => True
  end.
Proof.
  pose proof (DecimalPos.Unsigned.to_of (Pos.to_uint p)) as H.
  rewrite DecimalPos.Unsigned.of_to in H. cbn [N.to_uint] in H.
  pose proof (DecimalPos.Unsigned.to_uint_nonzero p) as Hz.
  pose proof (nzhead_not_D0 (Pos.to_uint p)) as Hn.
  unfold Decimal.unorm in H.
  destruct (Decimal.nzhead (Pos.to_uint p)) eqn:E.
  - now elim Hz.
  - now elim (Hn u).
  - now rewrite H. 
  - now rewrite H. 
  - now rewrite H. 
  - now rewrite H. 
  - now rewrite H. 
  - now rewrite H. 
  - now rewrite H. 
  - now rewrite H. 
  - now rewrite H. 
Qed.

Lemma to_uint_canonical (p : positive) : canonical (Pos.to_uint p).
Proof.
  pose proof (to_uint_head p) as H. unfold canonical.
  destruct (Pos.to_uint p); try contradiction; exact I.
Qed.

Lemma print_head (d : Decimal.uint) (rest : string) :
  d <> Decimal.Nil ->
  exists c tail,
    NilEmpty.string_of_uint d ++ rest = String c tail
    /\ is_digit c = true /\ Ascii.eqb c "-" = false.
Proof.
  destruct d; intros H; try (now elim H);
    cbn [NilEmpty.string_of_uint]; rewrite append_cons;
    eexists _, _; (split; [reflexivity | split; reflexivity]).
Qed.

Lemma canonical_not_nil (d : Decimal.uint) : canonical d -> d <> Decimal.Nil.
Proof. destruct d; intros H; try discriminate; contradiction. Qed.

Lemma parse_number_digits (negative : bool) (d : Decimal.uint) (rest : string) :
  canonical d ->
  ends_number rest ->
  parse_number ((if negative then "-" else EmptyString)
                ++ NilEmpty.string_of_uint d ++ rest)
  = Some (Z.of_int (if negative then Decimal.Neg d else Decimal.Pos d), rest).
Proof.
  intros Hd Hrest.
  assert (Hfrac : starts_fraction rest = false).
  { destruct rest; [reflexivity | apply Hrest]. }
  destruct (print_head d rest (canonical_not_nil d Hd)) as (c & tail & E & _ & Hminus).
  unfold parse_number. destruct negative; flatten.
  - change (Ascii.eqb "-" "-") with true. cbv iota.
    rewrite (parse_digits_print d rest Hrest).
    destruct d as [|[]| | | | | | | | |]; try contradiction; now rewrite Hfrac.
  - rewrite E, Hminus, <- E, (parse_digits_print d rest Hrest).
    destruct d as [|[]| | | | | | | | |]; try contradiction; now rewrite Hfrac.
Qed.

Lemma number_to_string_digits (z : Z) :
  exists (negative : bool) (d : Decimal.uint),
    canonical d
    /\ number_to_string z
       = (if negative then "-" else EmptyString) ++ NilEmpty.string_of_uint d
    /\ Z.to_int z = (if negative then Decimal.Neg d else Decimal.Pos d).
Proof.
  destruct z as [|p|p]; unfold number_to_string; cbn [Z.to_int NilZero.string_of_int].
  - exists false, (Decimal.D0 Decimal.Nil). repeat split.
  - exists false, (Pos.to_uint p). pose proof (to_uint_canonical p) as H.
    repeat split; [exact H |]. rewrite append_nil. unfold NilZero.string_of_uint.
    destruct (Pos.to_uint p); try contradiction; reflexivity.
  - exists true, (Pos.to_uint p). pose proof (to_uint_canonical p) as H.
    repeat split; [exact H |]. rewrite append_cons, append_nil.
    unfold NilZero.string_of_uint.
    destruct (Pos.to_uint p); try contradiction; reflexivity.
Qed.

Lemma parse_number_print (z : Z) (rest : string) :
  ends_number rest ->
  parse_number (number_to_string z ++ rest) = Some (z, rest).
Proof.
  intros Hrest.
  destruct (number_to_string_digits z) as (negative & d & Hd & E & Hz).
  rewrite E, append_assoc, (parse_number_digits negative d rest Hd Hrest).
  now rewrite <- Hz, DecimalZ.of_to.
Qed.

Lemma number_head (z : Z) (rest : string) :
  exists c tail,
    number_to_string z ++ rest = String c tail /\ is_number_start c = true.
Proof.
  destruct (number_to_string_digits z) as (negative & d & Hd & E & _).
  rewrite E, append_assoc. destruct negative.
  - eexists _, _. split; [apply append_cons | reflexivity].
  - destruct (print_head d rest (canonical_not_nil d Hd)) as (c & tail & E' & Hc & _).
    exists c, tail. rewrite append_nil. split; [exact E' |].
    unfold is_number_start. rewrite Hc. apply orb_true_r.
Qed.

Lemma number_start_not_ws (c : ascii) : is_number_start c = true -> is_ws c = false.
Proof. each_char c; intros H; try reflexivity; discriminate H. Qed.

Lemma parse_value_number (fuel : nat) (z : Z) (rest : string) :
  ends_number rest ->
  parse_value (S fuel) (number_to_string z ++ rest)
  = Some (Number (Num.Finite z), rest).
Proof.
  intros Hrest.
  destruct (number_head z rest) as (c & tail & E & Hc).
  cbn [parse_value]. rewrite E. cbn [skip_ws].
  rewrite (number_start_not_ws c Hc), Hc, <- E.
  now rewrite (parse_number_print z rest Hrest).
Qed.

Lemma parse_value_quote (fuel : nat) (s rest : string) :
  parse_value (S fuel) (quote s ++ rest) = Some (Str s, rest).
Proof.
  unfold quote. flatten. cbn [parse_value skip_ws].
  change (is_ws dq) with false. change (is_number_start dq) with false.
  change (Ascii.eqb dq dq) with true. cbv iota.
  now rewrite parse_chars_quote_chars.
Qed.

Lemma parse_value_object (fuel : nat) (key s : string) :
  parse_value (S fuel) (String "{" (quote key ++ s)) =
  match parse_members fuel (quote key ++ s) with
  | Some (m, rest) => Some (Object m, rest)
  | None => None
  end.
Proof. unfold quote. rewrite append_cons. reflexivity. Qed.

Lemma parse_members_more (fuel : nat) (key text more : string) (v : value) :
  parse_value fuel (text ++ String "," more) = Some (v, String "," more) ->
  parse_members (S fuel) (quote key ++ String ":" (text ++ String "," more))
  = match parse_members fuel more with
    | Some (m, rest) => Some ((key, v) :: m, rest)
    | None => None
    end.
Proof.
  intros H. unfold quote. flatten. cbn [parse_members skip_ws].
  change (is_ws dq) with false. cbv iota.
  change (Ascii.eqb dq dq) with true. cbv iota.
  rewrite parse_chars_quote_chars. cbn [skip_ws].
  change (is_ws ":") with false. cbv iota.
  rewrite H. reflexivity.
Qed.

Lemma parse_members_last (fuel : nat) (key text rest : string) (v : value) :
  parse_value fuel (text ++ String "}" rest) = Some (v, String "}" rest) ->
  parse_members (S fuel) (quote key ++ String ":" (text ++ String "}" rest))
  = Some ([(key, v)], rest).
Proof.
  intros H. unfold quote. flatten. cbn [parse_members skip_ws].
  change (is_ws dq) with false. cbv iota.
  change (Ascii.eqb dq dq) with true. cbv iota.
  rewrite parse_chars_quote_chars. cbn [skip_ws].
  change (is_ws ":") with false. cbv iota.
  rewrite H. reflexivity.
Qed.

End JSONFacts.

(** ** The persisted tokens *)

Section Persisted.
Import JSON JSONFacts.
#[local] Open Scope string_scope.

Lemma stringify_tokens (t : Tokens.t) :
  stringify (tokens_to_json (Some t)) = tokens_text t.
Proof.
  unfold tokens_text. cbn [stringify tokens_to_json]. flatten. reflexivity.
Qed.

Lemma parse_value_tokens (fuel : nat) (t : Tokens.t) (z : Z) :
  Tokens.accessTokenExpiry t = Num.Finite z ->
  parse_value (S (S (S (S (S fuel))))) (stringify (tokens_to_json (Some t)))
  = Some (tokens_to_json (Some t), EmptyString).
Proof.
  intros Hz.
  rewrite stringify_tokens. unfold tokens_text. rewrite parse_value_object.
  rewrite (parse_members_more _ _ _ _ (Str (Tokens.refreshToken t)))
    by apply parse_value_quote.
  rewrite (parse_members_more _ _ _ _ (Str (Tokens.accessToken t)))
    by apply parse_value_quote.
  rewrite Hz. cbn [number_text].
  rewrite (parse_members_last _ _ _ _ (Number (Num.Finite z)))
    by (apply parse_value_number; split; reflexivity).
  cbn [tokens_to_json]. now rewrite Hz.
Qed.

Lemma tokens_text_length (t : Tokens.t) :
  exists n, String.length (stringify (tokens_to_json (Some t))) = S (S (S (S n))).
Proof.
  rewrite stringify_tokens. unfold tokens_text, quote.
  change (quote_chars "refreshToken") with "refreshToken".
  flatten. cbn [String.length]. eexists. reflexivity.
Qed.

Lemma parse_stringify_tokens (x : option Tokens.t) :
  finite_expiry x ->
  parse (stringify (tokens_to_json x)) = Some (tokens_to_json x).
Proof.
  destruct x as [t|]; [| reflexivity]. intros [z Hz].
  unfold parse. destruct (tokens_text_length t) as [n ->].
  now rewrite (parse_value_tokens _ t z Hz).
Qed.

Lemma tokens_of_to_json (x : option Tokens.t) :
  tokens_of_json (tokens_to_json x) = Some x.
Proof. destruct x as [[r a e]|]; reflexivity. Qed.

End Persisted.

(** ** The token store between turns *)

Section StoreFacts.

Lemma initial_state (storage : gmap string string) (st : State) :
  initial storage = Some st ->
  exists x, st = mkState x storage None ∅ 0 [].
Proof.
  unfold initial. destruct (JSON.parse _) as [v|]; [| discriminate].
  destruct (tokens_of_json v) as [x|]; [| discriminate].
  intros [= <-]. now exists x.
Qed.

Lemma example_reachable : reachable example_state.
Proof. exists example_storage, example_state, []. split; vm_compute; reflexivity. Qed.

Ltac fields :=
  cbn [tokens localStorage tokenMutex requests nextRequest trace
       set_tokens set_localStorage set_tokenMutex set_requests set_nextRequest
       log setTokens_worker] in *.

Lemma refreshToken_some (st : State) (t : Tokens.t) :
  tokens st = Some t ->
  refreshToken st =
  (log (OauthToken (nextRequest st) (Tokens.refreshToken t))
     (set_nextRequest (S (nextRequest st))
        (set_requests (<[nextRequest st := Unawaited]> (requests st)) st)),
   Pending (nextRequest st)).
Proof. intros H. unfold refreshToken. now rewrite H. Qed.

Lemma fresh_insert (st : State) (w : Waiter) (r : nat) :
  fresh st -> is_Some (<[nextRequest st := w]> (requests st) !! r) -> r < S (nextRequest st).
Proof.
  intros Hf. rewrite lookup_insert. case_decide; [subst; lia |].
  intros Hr. apply Hf in Hr. lia.
Qed.

Lemma dispatch_inv (now : Z) (queue : list Worker) :
  forall st, fresh st -> none_awaited st -> Inv (dispatch now queue st).
Proof.
  induction queue as [|w queue IH]; intros st Hf Hn.
  - cbn [dispatch]. constructor; fields.
    + exact Hf.
    + intros r1 r2 H. now elim (Hn r1).
    + intros r H. now elim (Hn r).
    + intros H. now elim H.
  - cbn [dispatch]. destruct w as [x|caller]; cbn [run_worker].
    + apply IH; [exact Hf | exact Hn].
    + unfold getToken_worker. fields.
      destruct (tokens st) as [t|] eqn:Ht.
      2:{ apply IH; [exact Hf | exact Hn]. }
      destruct (Num.ltb (timeUntilExpiry t now) (Num.Finite (1000 * 60 * 10))).
      * rewrite (refreshToken_some _ t) by exact Ht. fields.
        destruct (Num.gtb (timeUntilExpiry t now) (Num.Finite (1000 * 5))).
        -- apply IH.
           ++ intros r. unfold fresh. fields. apply (fresh_insert st); exact Hf.
           ++ intros r [c Hc]. fields. rewrite lookup_insert in Hc.
              case_decide; [discriminate |]. apply (Hn r). now exists c.
        -- constructor; fields.
           ++ intros r. fields. rewrite lookup_insert. case_decide; [subst; lia |].
              apply (fresh_insert st); exact Hf.
           ++ assert (Hone : forall r, awaited
                (set_requests (<[nextRequest st := AwaitedBy caller]>
                  (<[nextRequest st := Unawaited]> (requests st))) st) r ->
                r = nextRequest st).
              { intros r [c Hc]. fields. rewrite !lookup_insert in Hc.
                case_decide; [congruence |]. elim (Hn r). now exists c. }
              intros r1 r2 [c1 H1] [c2 H2].
              rewrite (Hone r1), (Hone r2); [reflexivity | now exists c2 | now exists c1].
           ++ intros r _. split; [discriminate | now rewrite Ht].
           ++ intros _. exists (nextRequest st), caller. fields.
              now rewrite lookup_insert_eq.
      * destruct (Num.gtb (timeUntilExpiry t now) (Num.Finite (1000 * 5)));
          (apply IH; [exact Hf | exact Hn]).
Qed.

Lemma inv_none_awaited (st : State) :
  Inv st -> tokenMutex st = None -> none_awaited st.
Proof. intros HI Hm r Hr. destruct (inv_held st HI r Hr) as [H _]. now elim H. Qed.

Lemma inv_log (e : Event) (st : State) : Inv st -> Inv (log e st).
Proof. intros [H1 H2 H3 H4]. constructor; assumption. Qed.

Lemma runExclusive_inv (now : Z) (w : Worker) (st : State) :
  Inv st -> Inv (runExclusive now w st).
Proof.
  intros HI. unfold runExclusive. destruct (tokenMutex st) as [queue|] eqn:Hm.
  - destruct HI as [H1 H2 H3 H4]. constructor; fields.
    + exact H1.
    + exact H2.
    + intros r Hr. split; [discriminate | now apply (H3 r)].
    + intros _. apply H4. now rewrite Hm.
  - apply dispatch_inv; [exact (inv_fresh st HI) | now apply inv_none_awaited].
Qed.

(** Once the awaited request is taken off, no request is awaited. *)
Lemma none_awaited_delete (st : State) (r : nat) :
  Inv st -> awaited st r ->
  none_awaited (set_requests (delete r (requests st)) st).
Proof.
  intros HI Hr r' [c Hc]. fields. rewrite lookup_delete in Hc.
  case_decide; [discriminate |].
  assert (r' = r) by (apply (inv_unique st HI); [now exists c | exact Hr]).
  congruence.
Qed.

Lemma fresh_delete (st : State) (r : nat) :
  fresh st -> fresh (set_requests (delete r (requests st)) st).
Proof.
  intros Hf r'. fields. rewrite lookup_delete. case_decide.
  - intros [x Hx]. discriminate.
  - apply Hf.
Qed.

(** Taking an unawaited request off leaves the invariant. *)
Lemma inv_delete_unawaited (st : State) (r : nat) :
  Inv st -> requests st !! r = Some Unawaited ->
  Inv (set_requests (delete r (requests st)) st).
Proof.
  intros HI Hr.
  assert (Hsame : forall r', awaited (set_requests (delete r (requests st)) st) r'
                             <-> awaited st r').
  { intros r'. unfold awaited. fields. rewrite lookup_delete. case_decide.
    - subst. rewrite Hr. split; intros [c Hc]; discriminate.
    - reflexivity. }
  constructor.
  - exact (fresh_delete st r (inv_fresh st HI)).
  - intros r1 r2 H1 H2. apply (inv_unique st HI); now apply Hsame.
  - intros r' H'. apply Hsame in H'. exact (inv_held st HI r' H').
  - intros Hm. destruct (inv_free st HI Hm) as [r' H']. exists r'. now apply Hsame.
Qed.

Lemma inv_set_tokens_some (t : Tokens.t) (s : gmap string string) (st : State) :
  Inv st -> Inv (set_localStorage s (set_tokens (Some t) st)).
Proof.
  intros [H1 H2 H3 H4]. constructor; fields; try assumption.
  intros r Hr. split; [now apply (H3 r) | discriminate].
Qed.

Lemma oauthCallback_inv (now : Z) (r : nat) (reply : Error + string * Num.t) (st : State) :
  Inv st -> Inv (oauthCallback now r reply st).
Proof.
  intros HI. unfold oauthCallback.
  destruct (requests st !! r) as [[|caller]|] eqn:Hr; [| | exact HI].
  - (* nobody awaits *)
    pose proof (inv_delete_unawaited st r HI Hr) as HI'.
    destruct reply as [e|[a expiresIn]]; cbn [settle].
    + now apply inv_log.
    + fields. destruct (tokens st) as [t|]; [| now apply inv_log].
      now apply inv_set_tokens_some.
  - (* a getToken call awaits *)
    assert (Ha : awaited st r) by now exists caller.
    destruct (inv_held st HI r Ha) as [Hm Ht].
    pose proof (none_awaited_delete st r HI Ha) as Hn.
    pose proof (fresh_delete st r (inv_fresh st HI)) as Hf.
    destruct (tokenMutex st) as [queue|] eqn:Hq; [| now elim Hm].
    destruct reply as [e|[a expiresIn]]; cbn [settle]; unfold release; fields.
    + rewrite Hq. apply dispatch_inv; assumption.
    + destruct (tokens st) as [t|]; [| now elim Ht].
      fields. rewrite Hq. apply dispatch_inv; assumption.
Qed.

Lemma step_inv (now : Z) (i : Input) (st : State) : Inv st -> Inv (step now i st).
Proof.
  intros HI. destruct i; cbn [step].
  - now apply runExclusive_inv.
  - now apply runExclusive_inv.
  - now apply runExclusive_inv, inv_log.
  - now apply oauthCallback_inv.
Qed.

Lemma run_inv (inputs : list (Z * Input)) :
  forall st, Inv st -> Inv (run inputs st).
Proof.
  induction inputs as [|[now i] inputs IH]; intros st HI; [exact HI |].
  cbn [run]. now apply IH, step_inv.
Qed.

Lemma initial_inv (storage : gmap string string) (st : State) :
  initial storage = Some st -> Inv st.
Proof.
  intros H. destruct (initial_state storage st H) as [x ->].
  constructor.
  - intros r [w Hw]. fields. now rewrite lookup_empty in Hw.
  - intros r1 r2 [c Hc]. fields. now rewrite lookup_empty in Hc.
  - intros r [c Hc]. fields. now rewrite lookup_empty in Hc.
  - intros H'. now elim H'.
Qed.

Lemma reachable_inv (st : State) : reachable st -> Inv st.
Proof.
  intros (storage & st0 & inputs & H0 & <-).
  apply run_inv, (initial_inv storage), H0.
Qed.

Lemma reachable_step (now : Z) (i : Input) (st : State) :
  reachable st -> reachable (step now i st).
Proof.
  intros (storage & st0 & inputs & H0 & <-).
  exists storage, st0, (inputs ++ [(now, i)]). split; [exact H0 |].
  clear H0. revert st0. induction inputs as [|[n j] inputs IH]; intros st0.
  - reflexivity.
  - cbn [run app]. apply IH.
Qed.

(** *** What a worker and the queue add to the trace *)

Lemma run_worker_trace (now : Z) (w : Worker) (st : State) :
  exists more, trace (fst (run_worker now w st)) = trace st ++ more.
Proof.
  destruct w as [x|caller]; cbn [run_worker].
  - exists []. cbn. now rewrite app_nil_r.
  - unfold getToken_worker. destruct (tokens st) as [t|] eqn:Ht.
    2:{ eexists. cbn. reflexivity. }
    destruct (Num.ltb (timeUntilExpiry t now) (Num.Finite (1000 * 60 * 10))).
    + rewrite (refreshToken_some _ t) by exact Ht.
      destruct (Num.gtb (timeUntilExpiry t now) (Num.Finite (1000 * 5)));
        cbn; rewrite <- ?app_assoc; eexists; reflexivity.
    + destruct (Num.gtb (timeUntilExpiry t now) (Num.Finite (1000 * 5)));
        cbn; eexists; reflexivity.
Qed.

Lemma dispatch_trace (now : Z) (queue : list Worker) :
  forall st, exists more, trace (dispatch now queue st) = trace st ++ more.
Proof.
  induction queue as [|w queue IH]; intros st.
  - exists []. cbn. now rewrite app_nil_r.
  - cbn [dispatch].
    destruct (run_worker_trace now w (set_tokenMutex (Some queue) st)) as [m1 H1].
    destruct (run_worker now w (set_tokenMutex (Some queue) st)) as [st' finished].
    cbn [fst] in H1. fields. destruct finished.
    + destruct (IH st') as [m2 H2]. exists (m1 ++ m2).
      now rewrite H2, H1, app_assoc.
    + now exists m1.
Qed.

(** *** While a call awaits its refresh *)

Lemma waiting_step (now : Z) (i : Input) (st : State) (r caller : nat) :
  Inv st ->
  requests st !! r = Some (AwaitedBy caller) ->
  answers r i = false ->
  requests (step now i st) !! r = Some (AwaitedBy caller)
  /\ exists events,
       trace (step now i st) = trace st ++ events /\ nobody_settled events.
Proof.
  intros HI Hr Hi.
  assert (Ha : awaited st r) by now exists caller.
  destruct (inv_held st HI r Ha) as [Hm Ht].
  destruct (tokenMutex st) as [queue|] eqn:Hq; [clear Hm | now elim Hm].
  assert (Hqueued : forall w st',
    tokenMutex st' = Some queue -> requests st' = requests st ->
    requests (runExclusive now w st') !! r = Some (AwaitedBy caller)
    /\ trace (runExclusive now w st') = trace st').
  { intros w st' Hq' Hr'. unfold runExclusive. rewrite Hq'. fields.
    now rewrite Hr'. }
  destruct i as [c|a rt e| |r' reply]; cbn [step].
  - destruct (Hqueued (GetTokenWorker c) st Hq eq_refl) as [H1 H2].
    split; [exact H1 |]. exists []. rewrite app_nil_r.
    split; [exact H2 | intros ? ? []].
  - destruct (Hqueued
      (SetTokensWorker
         (Some (Tokens.mk rt a
                  (Num.add (Num.Finite now) (Num.mul e (Num.Finite 1000)))))) st Hq eq_refl)
      as [H1 H2].
    split; [exact H1 |]. exists []. rewrite app_nil_r.
    split; [exact H2 | intros ? ? []].
  - destruct (Hqueued (SetTokensWorker None) (log (Emitted "logout") st) Hq eq_refl)
      as [H1 H2].
    split; [exact H1 |]. exists [Emitted "logout"].
    split; [exact H2 |]. intros c o [H|[]]. discriminate H.
  - cbn [answers] in Hi. apply Nat.eqb_neq in Hi.
    unfold oauthCallback.
    destruct (requests st !! r') as [[|c']|] eqn:Hr'.
    + assert (Hkeep : delete r' (requests st) !! r = Some (AwaitedBy caller)).
      { now rewrite lookup_delete_ne. }
      destruct reply as [e|[a expiresIn]]; cbn [settle].
      * split; [exact Hkeep |]. exists [UnhandledRejection e].
        split; [reflexivity |]. intros c o [H|[]]. discriminate H.
      * fields. destruct (tokens st) as [t|]; [| now elim Ht].
        split; [exact Hkeep |]. exists []. rewrite app_nil_r.
        split; [reflexivity | intros ? ? []].
    + elim Hi. apply (inv_unique st HI); [now exists c' | exact Ha].
    + split; [exact Hr |]. exists []. rewrite app_nil_r.
      split; [reflexivity | intros ? ? []].
Qed.

Lemma nobody_settled_app (e1 e2 : list Event) :
  nobody_settled e1 -> nobody_settled e2 -> nobody_settled (e1 ++ e2).
Proof.
  intros H1 H2 c o H. apply in_app_or in H. destruct H; [now apply (H1 c o) | now apply (H2 c o)].
Qed.

Lemma waiting_run (inputs : list (Z * Input)) (r caller : nat) :
  forall st,
    Inv st ->
    requests st !! r = Some (AwaitedBy caller) ->
    unanswered r inputs = true ->
    Inv (run inputs st)
    /\ requests (run inputs st) !! r = Some (AwaitedBy caller)
    /\ exists events,
         trace (run inputs st) = trace st ++ events /\ nobody_settled events.
Proof.
  induction inputs as [|[now i] inputs IH]; intros st HI Hr Hin.
  - cbn [run]. split; [exact HI | split; [exact Hr |]]. exists [].
    rewrite app_nil_r. split; [reflexivity | intros ? ? []].
  - cbn [unanswered forallb snd] in Hin. apply andb_prop in Hin as [Hi Hin].
    apply negb_true_iff in Hi.
    destruct (waiting_step now i st r caller HI Hr Hi) as (Hr1 & ev1 & Ht1 & Hq1).
    destruct (IH (step now i st) (step_inv now i st HI) Hr1 Hin)
      as (HI2 & Hr2 & ev2 & Ht2 & Hq2).
    cbn [run]. split; [exact HI2 | split; [exact Hr2 |]]. exists (ev1 ++ ev2).
    split; [now rewrite Ht2, Ht1, app_assoc | now apply nobody_settled_app].
Qed.

Lemma reply_settles (now : Z) (r caller : nat) (reply : Error + string * Num.t) (st : State) :
  Inv st ->
  requests st !! r = Some (AwaitedBy caller) ->
  exists more,
    trace (oauthCallback now r reply st)
    = trace st ++ GetTokenSettled caller (refreshed reply) :: more.
Proof.
  intros HI Hr.
  assert (Ha : awaited st r) by now exists caller.
  destruct (inv_held st HI r Ha) as [Hm Ht].
  unfold oauthCallback. rewrite Hr.
  destruct (tokenMutex st) as [queue|] eqn:Hq; [clear Hm | now elim Hm].
  destruct reply as [e|[a expiresIn]]; cbn [settle refreshed outcome_map];
    unfold release; fields.
  - rewrite Hq.
    match goal with |- context [dispatch now queue ?s] =>
      destruct (dispatch_trace now queue s) as [more ->] end.
    exists more. cbn. now rewrite <- app_assoc.
  - destruct (tokens st) as [t|]; [| now elim Ht]. fields. rewrite Hq.
    match goal with |- context [dispatch now queue ?s] =>
      destruct (dispatch_trace now queue s) as [more ->] end.
    exists more. cbn. now rewrite <- app_assoc.
Qed.

(** *** The worker of getToken, case by case *)

Lemma getToken_worker_blocking (now : Z) (st : State) (t : Tokens.t) :
  tokens st = Some t ->
  Num.leb (timeUntilExpiry t now) (Num.Finite (1000 * 5)) = true ->
  getToken_worker now st =
  (fst (refreshToken st), Some (Pending (nextRequest st)),
   ReturnPromise (Some (Pending (nextRequest st)))).
Proof.
  intros Ht Hle. unfold getToken_worker. rewrite Ht.
  rewrite (NumFacts.leb_5s_ltb_10min _ Hle), (refreshToken_some st t Ht),
    (NumFacts.leb_not_gtb _ _ Hle).
  reflexivity.
Qed.

Lemma getToken_worker_background (now : Z) (st : State) (t : Tokens.t) :
  tokens st = Some t ->
  Num.ltb (Num.Finite (1000 * 5)) (timeUntilExpiry t now) = true
  /\ Num.ltb (timeUntilExpiry t now) (Num.Finite (1000 * 60 * 10)) = true ->
  getToken_worker now st =
  (fst (refreshToken st), Some (Pending (nextRequest st)),
   ReturnToken (Tokens.accessToken t)).
Proof.
  intros Ht [Hlo Hhi]. unfold getToken_worker. rewrite Ht.
  unfold Num.gtb. rewrite Hhi, (refreshToken_some st t Ht), Hlo. reflexivity.
Qed.

(** The else branch of line 155 returns a null [refreshPromise] only for
    an expiry that is NaN. *)
Lemma null_promise_only_at_NaN
  (now : Z) (st st1 : State) (refreshPromise : option Promise) :
  getToken_worker now st = (st1, refreshPromise, ReturnPromise None) ->
  exists t, tokens st = Some t /\ Tokens.accessTokenExpiry t = Num.NaN.
Proof.
  intros H. unfold getToken_worker in H.
  destruct (tokens st) as [t|] eqn:Ht; [| discriminate H].
  exists t. split; [reflexivity |].
  destruct (Num.ltb (timeUntilExpiry t now) (Num.Finite (1000 * 60 * 10))) eqn:H10.
  { rewrite (refreshToken_some st t Ht) in H.
    destruct (Num.gtb (timeUntilExpiry t now) (Num.Finite (1000 * 5)));
      discriminate H. }
  destruct (Num.gtb (timeUntilExpiry t now) (Num.Finite (1000 * 5))) eqn:H5;
    [discriminate H |].
  apply (NumFacts.sub_finite_NaN _ now), NumFacts.ltb_10min_gtb_5s; assumption.
Qed.

(** C10 fails on the code: a login whose event carries no [expiresIn]
    stores the expiry [Date.now() + undefined * 1000], which is NaN.  For
    that session neither [timeUntilExpiry < 10 min] nor
    [timeUntilExpiry > 5 s] holds: no refresh is started, the else branch
    of line 155 is taken all the same and returns [refreshPromise], which
    is null; getToken() resolves with null and the token endpoint has not
    been called. *)
Theorem blocking_branch_null_promise :
  let st := step 1000 (Authenticated "A" "R" Num.NaN) logged_out_state in
  reachable st
  /\ tokens st = Some (Tokens.mk "R" "A" Num.NaN)
  /\ Num.ltb (timeUntilExpiry (Tokens.mk "R" "A" Num.NaN) 2000)
             (Num.Finite (1000 * 60 * 10)) = false
  /\ Num.gtb (timeUntilExpiry (Tokens.mk "R" "A" Num.NaN) 2000)
             (Num.Finite (1000 * 5)) = false
  /\ getToken_worker 2000 st = (st, None, ReturnPromise None)
  /\ trace (getToken 2000 7 st) = [GetTokenSettled 7 (Resolved None)].
Proof.
  cbv zeta. split.
  - apply reachable_step. exists ∅, logged_out_state, []. split; reflexivity.
  - repeat split; vm_compute; reflexivity.
Qed.

Lemma getToken_in_window (now : Z) (caller : nat) (t : Tokens.t) (st : State) :
  tokenMutex st = None ->
  tokens st = Some t ->
  Num.ltb (Num.Finite (1000 * 5)) (timeUntilExpiry t now) = true
  /\ Num.ltb (timeUntilExpiry t now) (Num.Finite (1000 * 60 * 10)) = true ->
  getToken now caller st =
  mkState (Some t) (localStorage st) None
    (<[nextRequest st := Unawaited]> (requests st)) (S (nextRequest st))
    (trace st ++ [OauthToken (nextRequest st) (Tokens.refreshToken t);
                  GetTokenSettled caller (Resolved (Some (Tokens.accessToken t)))]).
Proof.
  intros Hm Ht Hwin. unfold getToken, runExclusive. rewrite Hm.
  cbn [dispatch run_worker].
  rewrite (getToken_worker_background now _ t) by (fields; assumption).
  rewrite (refreshToken_some _ t) by (fields; assumption).
  cbn [fst dispatch]. unfold set_tokenMutex, log, set_nextRequest, set_requests.
  fields. rewrite <- app_assoc. cbn [app]. now rewrite Ht.
Qed.

(** C2: with the mutex free and a token that expires in more than 5
    seconds and less than 10 minutes, one call of getToken() calls the
    token endpoint exactly once and resolves with the cached access
    token; the tokens are as before and the mutex is free again. *)
Theorem getToken_background (now : Z) (caller : nat) (t : Tokens.t) (st : State) :
  tokenMutex st = None ->
  tokens st = Some t ->
  Num.ltb (Num.Finite (1000 * 5)) (timeUntilExpiry t now) = true
  /\ Num.ltb (timeUntilExpiry t now) (Num.Finite (1000 * 60 * 10)) = true ->
  let st1 := getToken now caller st in
  trace st1 = trace st ++ [OauthToken (nextRequest st) (Tokens.refreshToken t);
                           GetTokenSettled caller (Resolved (Some (Tokens.accessToken t)))]
  /\ tokens st1 = Some t
  /\ localStorage st1 = localStorage st
  /\ tokenMutex st1 = None
  /\ requests st1 = <[nextRequest st := Unawaited]> (requests st).
Proof.
  intros Hm Ht Hwin. cbv zeta.
  rewrite (getToken_in_window now caller t st Hm Ht Hwin). repeat split.
Qed.

Lemma getToken_background_witness :
  trace (getToken 900000 7 example_state)
  = [OauthToken 0 "R"; GetTokenSettled 7 (Resolved (Some "A"%string))].
Proof.
  apply (getToken_background 900000 7 example_tokens example_state);
    [reflexivity | reflexivity | split; reflexivity].
Defined.

(** C1: with the mutex free and a token that expires within 5 seconds
    (so both thresholds hold), getToken() calls the token endpoint and
    settles nothing yet; whatever else happens before the answer, no
    getToken() promise settles; and when the answer comes, the first
    thing that happens is that the caller gets the new access token, or
    the error of the token endpoint when the refresh failed. *)
Theorem getToken_blocking (now : Z) (caller : nat) (t : Tokens.t) (st : State) :
  reachable st ->
  tokenMutex st = None ->
  tokens st = Some t ->
  Num.leb (timeUntilExpiry t now) (Num.Finite (1000 * 5)) = true ->
  let request := nextRequest st in
  let st1 := getToken now caller st in
  trace st1 = trace st ++ [OauthToken request (Tokens.refreshToken t)]
  /\ forall inputs,
       unanswered request inputs = true ->
       let st2 := run inputs st1 in
       (exists events, trace st2 = trace st1 ++ events /\ nobody_settled events)
       /\ forall now' reply,
            exists more,
              trace (step now' (OauthReply request reply) st2)
              = trace st2 ++ GetTokenSettled caller (refreshed reply) :: more.
Proof.
  intros Hreach Hm Ht Hle. cbv zeta.
  pose proof (runExclusive_inv now (GetTokenWorker caller) st (reachable_inv st Hreach))
    as HI1.
  fold (getToken now caller st) in HI1.
  assert (E : getToken now caller st =
    set_requests (<[nextRequest st := AwaitedBy caller]>
                    (requests (fst (refreshToken (set_tokenMutex (Some []) st)))))
                 (fst (refreshToken (set_tokenMutex (Some []) st)))).
  { unfold getToken, runExclusive. rewrite Hm. cbn [dispatch run_worker].
    rewrite (getToken_worker_blocking now _ t) by (fields; assumption).
    reflexivity. }
  rewrite (refreshToken_some _ t) in E by (fields; assumption).
  cbn [fst] in E. fields.
  assert (Hr1 : requests (getToken now caller st) !! nextRequest st
                = Some (AwaitedBy caller)).
  { rewrite E. fields. now rewrite lookup_insert_eq. }
  split; [now rewrite E |].
  intros inputs Hin.
  destruct (waiting_run inputs (nextRequest st) caller _ HI1 Hr1 Hin)
    as (HI2 & Hr2 & Hev).
  split; [exact Hev |].
  intros now' reply. cbn [step]. now apply reply_settles.
Qed.

Lemma getToken_blocking_witness :
  trace (getToken 999000 7 example_state) = [OauthToken 0 "R"].
Proof.
  apply (getToken_blocking 999000 7 example_tokens example_state);
    [exact example_reachable | reflexivity | reflexivity | reflexivity].
Defined.

(** *** A refresh nobody awaits *)

Lemma run_worker_keeps (now : Z) (w : Worker) (st : State) (r : nat) (x : Waiter) :
  r < nextRequest st ->
  requests st !! r = Some x ->
  r < nextRequest (fst (run_worker now w st))
  /\ requests (fst (run_worker now w st)) !! r = Some x.
Proof.
  intros Hlt Hr. destruct w as [nt|caller]; cbn [run_worker].
  - split; assumption.
  - unfold getToken_worker. destruct (tokens st) as [t|] eqn:Ht.
    2:{ split; assumption. }
    destruct (Num.ltb (timeUntilExpiry t now) (Num.Finite (1000 * 60 * 10))).
    + rewrite (refreshToken_some _ t) by exact Ht.
      destruct (Num.gtb (timeUntilExpiry t now) (Num.Finite (1000 * 5))); cbn [fst]; fields;
        (split; [lia |]); rewrite ?lookup_insert_ne by lia; exact Hr.
    + destruct (Num.gtb (timeUntilExpiry t now) (Num.Finite (1000 * 5))); split; assumption.
Qed.

Lemma dispatch_keeps (now : Z) (queue : list Worker) (r : nat) (x : Waiter) :
  forall st,
    r < nextRequest st ->
    requests st !! r = Some x ->
    r < nextRequest (dispatch now queue st)
    /\ requests (dispatch now queue st) !! r = Some x.
Proof.
  induction queue as [|w queue IH]; intros st Hlt Hr.
  - split; assumption.
  - cbn [dispatch].
    destruct (run_worker_keeps now w (set_tokenMutex (Some queue) st) r x Hlt Hr)
      as [H1 H2].
    destruct (run_worker now w (set_tokenMutex (Some queue) st)) as [st' finished].
    cbn [fst] in H1, H2. destruct finished; [now apply IH | split; assumption].
Qed.

Lemma runExclusive_keeps (now : Z) (w : Worker) (st : State) (r : nat) (x : Waiter) :
  r < nextRequest st ->
  requests st !! r = Some x ->
  r < nextRequest (runExclusive now w st)
  /\ requests (runExclusive now w st) !! r = Some x.
Proof.
  intros Hlt Hr. unfold runExclusive. destruct (tokenMutex st) as [queue|].
  - split; assumption.
  - now apply dispatch_keeps.
Qed.

Lemma unawaited_step (now : Z) (i : Input) (st : State) (r : nat) :
  Inv st ->
  requests st !! r = Some Unawaited ->
  answers r i = false ->
  requests (step now i st) !! r = Some Unawaited.
Proof.
  intros HI Hr Hi.
  assert (Hlt : r < nextRequest st) by (apply (inv_fresh st HI); now rewrite Hr).
  destruct i as [c|a rt e| |r' reply]; cbn [step].
  - now apply runExclusive_keeps.
  - now apply runExclusive_keeps.
  - now apply runExclusive_keeps.
  - cbn [answers] in Hi. apply Nat.eqb_neq in Hi. unfold oauthCallback.
    destruct (requests st !! r') as [w|] eqn:Hr'; [| exact Hr].
    assert (Hkeep : delete r' (requests st) !! r = Some Unawaited)
      by now rewrite lookup_delete_ne.
    assert (Hsettle : forall o st',
      r < nextRequest st' -> requests st' !! r = Some Unawaited ->
      requests (settle now w o st') !! r = Some Unawaited).
    { intros o st' Hlt' Hr''. destruct w as [|c]; cbn [settle].
      - destruct o; exact Hr''.
      - unfold release. fields. destruct (tokenMutex st') as [queue|]; [| exact Hr''].
        now apply dispatch_keeps. }
    destruct reply as [e|[a expiresIn]].
    + now apply Hsettle.
    + fields. destruct (tokens st) as [t|]; [| exact Hkeep]. now apply Hsettle.
Qed.

Lemma unawaited_run (inputs : list (Z * Input)) (r : nat) :
  forall st,
    Inv st ->
    requests st !! r = Some Unawaited ->
    unanswered r inputs = true ->
    requests (run inputs st) !! r = Some Unawaited.
Proof.
  induction inputs as [|[now i] inputs IH]; intros st HI Hr Hin; [exact Hr |].
  cbn [unanswered forallb snd] in Hin. apply andb_prop in Hin as [Hi Hin].
  apply negb_true_iff in Hi. cbn [run].
  apply IH; [now apply step_inv | now apply unawaited_step | exact Hin].
Qed.

(** C6, as the code has it: in the window of the background refresh
    getToken() resolves at once with the cached token; when the token
    endpoint later answers the refresh with an error, whatever happened
    in between, the rejected promise has no listener: all that happens is
    an unhandled rejection.  No getToken() promise is rejected, nothing
    is logged or reported by the module, and tokens, storage and mutex
    are as before. *)
Theorem background_refresh_failure (now : Z) (caller : nat) (t : Tokens.t) (st : State) :
  reachable st ->
  tokenMutex st = None ->
  tokens st = Some t ->
  Num.ltb (Num.Finite (1000 * 5)) (timeUntilExpiry t now) = true
  /\ Num.ltb (timeUntilExpiry t now) (Num.Finite (1000 * 60 * 10)) = true ->
  let request := nextRequest st in
  let st1 := getToken now caller st in
  trace st1 = trace st ++ [OauthToken request (Tokens.refreshToken t);
                           GetTokenSettled caller (Resolved (Some (Tokens.accessToken t)))]
  /\ forall inputs now' error,
       unanswered request inputs = true ->
       let st2 := run inputs st1 in
       let st3 := step now' (OauthReply request (inl error)) st2 in
       trace st3 = trace st2 ++ [UnhandledRejection error]
       /\ tokens st3 = tokens st2
       /\ localStorage st3 = localStorage st2
       /\ tokenMutex st3 = tokenMutex st2.
Proof.
  intros Hreach Hm Ht Hwin. cbv zeta.
  pose proof (getToken_in_window now caller t st Hm Ht Hwin) as E.
  split; [now rewrite E |].
  intros inputs now' error Hin.
  pose proof (runExclusive_inv now (GetTokenWorker caller) st (reachable_inv st Hreach))
    as HI1.
  fold (getToken now caller st) in HI1.
  assert (Hr1 : requests (getToken now caller st) !! nextRequest st = Some Unawaited)
    by (rewrite E; apply lookup_insert_eq).
  pose proof (unawaited_run inputs (nextRequest st) _ HI1 Hr1 Hin) as Hr2.
  cbn [step]. unfold oauthCallback. rewrite Hr2. cbn [settle].
  repeat split.
Qed.

Lemma background_refresh_failure_witness :
  trace (getToken 900000 7 example_state)
  = [OauthToken 0 "R"; GetTokenSettled 7 (Resolved (Some "A"%string))].
Proof.
  apply (background_refresh_failure 900000 7 example_tokens example_state);
    [exact example_reachable | reflexivity | reflexivity | split; reflexivity].
Defined.

(** C6, as stated, fails: the stored session, a getToken() call 100
    seconds before the expiry, then the token endpoint rejects the
    refresh.  The caller has the cached token A, the rejection is left
    unhandled, and the module has logged or reported nothing. *)
Lemma background_refresh_failure_not_reported :
  let st := run [(900000%Z, CallGetToken 7);
                 (900500%Z, OauthReply 0 (inl "invalid_grant"%string))]
                example_state in
  settled 7 (trace st) = Some (Resolved (Some "A"%string))
  /\ In (UnhandledRejection "invalid_grant") (trace st)
  /\ ~ logged_or_reported (trace st).
Proof.
  cbv zeta. split; [reflexivity |]. split; [vm_compute; tauto |].
  intros (ev & Hin & Hev). vm_compute in Hin.
  destruct Hin as [<-|[<-|[<-|[]]]]; exact Hev.
Qed.

(** *** Logging out *)

(** An answer of the token endpoint never logs a logged-out store in. *)
Lemma reply_keeps_logged_out (now : Z) (r : nat) (reply : Error + string * Num.t) (st : State) :
  Inv st -> tokens st = None -> tokens (oauthCallback now r reply st) = None.
Proof.
  intros HI Ht. unfold oauthCallback.
  destruct (requests st !! r) as [[|caller]|] eqn:Hr; [| | exact Ht].
  - destruct reply as [e|[a expiresIn]]; cbn [settle]; fields; [exact Ht |].
    now rewrite Ht.
  - assert (Ha : awaited st r) by now exists caller.
    destruct (inv_held st HI r Ha) as [_ H]. now elim H.
Qed.



(** *** The tokens and their stored text are written together *)

Lemma written_same (st st' : State) :
  tokens st' = tokens st -> localStorage st' = localStorage st ->
  written_together st st'.
Proof. intros H1 H2. left. now split. Qed.

Lemma written_trans (st1 st2 st3 : State) :
  written_together st1 st2 -> written_together st2 st3 -> written_together st1 st3.
Proof.
  intros H12 [[Ht Hs]|H3]; [| now right].
  destruct H12 as [[Ht' Hs']|H2].
  - left. split; congruence.
  - right. unfold stored in *. now rewrite Ht, Hs.
Qed.

Lemma written_setTokens (x : option Tokens.t) (st : State) :
  written_together st (setTokens_worker x st).
Proof. right. unfold stored. fields. apply lookup_insert_eq. Qed.

Lemma run_worker_written (now : Z) (w : Worker) (st : State) :
  written_together st (fst (run_worker now w st)).
Proof.
  destruct w as [x|caller]; cbn [run_worker fst].
  - apply written_setTokens.
  - unfold getToken_worker. destruct (tokens st) as [t|] eqn:Ht.
    2:{ now apply written_same. }
    destruct (Num.ltb (timeUntilExpiry t now) (Num.Finite (1000 * 60 * 10))).
    + rewrite (refreshToken_some _ t) by exact Ht.
      destruct (Num.gtb (timeUntilExpiry t now) (Num.Finite (1000 * 5)));
        now apply written_same.
    + destruct (Num.gtb (timeUntilExpiry t now) (Num.Finite (1000 * 5)));
        now apply written_same.
Qed.

Lemma dispatch_written (now : Z) (queue : list Worker) :
  forall st, written_together st (dispatch now queue st).
Proof.
  induction queue as [|w queue IH]; intros st.
  - now apply written_same.
  - cbn [dispatch].
    pose proof (run_worker_written now w (set_tokenMutex (Some queue) st)) as Hw.
    destruct (run_worker now w (set_tokenMutex (Some queue) st)) as [st' finished].
    cbn [fst] in Hw.
    assert (H' : written_together st st').
    { apply (written_trans st (set_tokenMutex (Some queue) st));
        [now apply written_same | exact Hw]. }
    destruct finished; [| exact H'].
    apply (written_trans st st'); [exact H' | apply IH].
Qed.

Lemma step_written (now : Z) (i : Input) (st : State) :
  written_together st (step now i st).
Proof.
  assert (Hrun : forall w st', written_together st' (runExclusive now w st')).
  { intros w st'. unfold runExclusive. destruct (tokenMutex st').
    - now apply written_same.
    - apply dispatch_written. }
  assert (Hsettle : forall w o st', written_together st' (settle now w o st')).
  { intros w o st'. destruct w as [|c]; cbn [settle].
    - destruct o; now apply written_same.
    - unfold release. fields. destruct (tokenMutex st').
      + apply (written_trans st' (log (GetTokenSettled c (outcome_map Some o)) st'));
          [now apply written_same | apply dispatch_written].
      + now apply written_same. }
  destruct i as [c|a rt e| |r reply]; cbn [step].
  - apply Hrun.
  - apply Hrun.
  - apply (written_trans st (log (Emitted "logout") st));
      [now apply written_same | apply Hrun].
  - unfold oauthCallback. destruct (requests st !! r) as [w|]; [| now apply written_same].
    destruct reply as [e|[a expiresIn]].
    + apply (written_trans st (set_requests (delete r (requests st)) st));
        [now apply written_same | apply Hsettle].
    + fields. destruct (tokens st) as [t|]; [| now apply written_same].
      match goal with |- written_together _ (settle _ _ _ ?s) =>
        apply (written_trans st s); [| apply Hsettle] end.
      right. unfold stored. fields. apply lookup_insert_eq.
Qed.

(** *** Refreshes and the mutex *)

(** C4, as stated, fails: from the stored session, a getToken() call 100
    seconds before the expiry returns and gives the mutex back while its
    refresh is in flight; the answer then changes [accessToken] with the
    mutex free, and a second call in between has a second refresh in
    flight. *)
Lemma refresh_outside_mutex :
  ~ mutation_under_mutex /\ ~ one_refresh_in_flight.
Proof.
  split.
  - intros H.
    apply (H (step 900000 (CallGetToken 7) example_state) 900500%Z 0
             (inr ("B"%string, Num.Finite 3600))).
    + apply reachable_step, example_reachable.
    + vm_compute. discriminate.
    + reflexivity.
  - intros H.
    pose proof (H (run [(900000%Z, CallGetToken 7); (900100%Z, CallGetToken 8)]
                       example_state)) as H2.
    assert (Hsize : size (requests (run [(900000%Z, CallGetToken 7);
                                         (900100%Z, CallGetToken 8)] example_state)) = 2)
      by (vm_compute; reflexivity).
    rewrite Hsize in H2.
    assert (2 <= 1) by (apply H2; do 2 apply reachable_step; exact example_reachable).
    lia.
Qed.

(** C4, as the code has it: between two turns of the event loop at most
    one refresh is awaited by a getToken() call, and one is awaited
    exactly when the mutex is held; so the answer to an awaited refresh
    changes the tokens under the mutex, and an answer that changes them
    with the mutex free is the answer to a refresh nobody awaits (a
    background refresh).  [setTokens] leaves the tokens alone while the
    mutex is held by someone else.  And a turn that changes the tokens
    writes both fields and the storage at once: after it the storage
    holds the text of the tokens that are in memory. *)
Theorem refresh_and_mutex (st : State) :
  reachable st ->
  (forall r1 r2, awaited st r1 -> awaited st r2 -> r1 = r2)
  /\ ((exists r, awaited st r) <-> tokenMutex st <> None)
  /\ (forall now r reply,
        tokens (oauthCallback now r reply st) <> tokens st ->
        tokenMutex st <> None \/ requests st !! r = Some Unawaited)
  /\ (forall now newTokens,
        tokenMutex st <> None -> tokens (setTokens now newTokens st) = tokens st)
  /\ (forall now i, tokens (step now i st) <> tokens st -> stored (step now i st)).
Proof.
  intros Hreach. pose proof (reachable_inv st Hreach) as HI.
  split; [exact (inv_unique st HI) |].
  split.
  { split; [intros [r Hr]; apply (inv_held st HI r Hr) | exact (inv_free st HI)]. }
  split.
  - intros now r reply Hchange. unfold oauthCallback in Hchange.
    destruct (requests st !! r) as [[|caller]|] eqn:Hr.
    + now right.
    + left. apply (inv_held st HI r). now exists caller.
    + now elim Hchange.
  - split.
    + intros now newTokens Hm. unfold setTokens, runExclusive.
      destruct (tokenMutex st); [reflexivity | now elim Hm].
    + intros now i Hchange.
      destruct (step_written now i st) as [[Ht _]|Hs]; [now elim Hchange | exact Hs].
Qed.

Lemma refresh_and_mutex_witness :
  awaited (step 999000 (CallGetToken 7) example_state) 0
  /\ tokenMutex (step 999000 (CallGetToken 7) example_state) <> None
  /\ stored (step 999900 (OauthReply 0 (inr ("B"%string, Num.Finite 3600)))
               (step 999000 (CallGetToken 7) example_state)).
Proof.
  pose proof (refresh_and_mutex (step 999000 (CallGetToken 7) example_state)
                (reachable_step 999000 (CallGetToken 7) example_state
                   example_reachable)) as (_ & Hheld & _ & _ & Hstored).
  assert (Ha : awaited (step 999000 (CallGetToken 7) example_state) 0)
    by (exists 7; reflexivity).
  split; [exact Ha |]. split.
  - apply Hheld. now exists 0.
  - apply Hstored. vm_compute. discriminate.
Defined.

(** *** What is stored is what is loaded *)

(** C9, as stated, fails: a TokenSet whose expiry is NaN, which is what
    the listener of 'authenticated' hands to setTokens when the event has
    no [expiresIn], is stored with the expiry written as null; a restart
    reads an object whose [accessTokenExpiry] is null, not the TokenSet
    that was set. *)
Lemma nan_expiry_is_not_reloaded :
  let t := Tokens.mk "R" "A" Num.NaN in
  let st1 := setTokens 1000 (Some t) logged_out_state in
  authenticated 1000 "A" "R" Num.NaN logged_out_state = st1
  /\ tokens st1 = Some t
  /\ JSON.parse <$> (localStorage st1 !! "tokens"%string)
     = Some (Some (JSON.Object [("refreshToken"%string, JSON.Str "R");
                                ("accessToken"%string, JSON.Str "A");
                                ("accessTokenExpiry"%string, JSON.Null)]))
  /\ tokens <$> initial (localStorage st1) <> Some (Some t).
Proof.
  cbv zeta. split; [reflexivity |]. split; [reflexivity |].
  split; [vm_compute; reflexivity |]. vm_compute. discriminate.
Qed.

(** C9, as the code has it: with the mutex free, after setTokens(t) for
    a TokenSet whose expiry is a finite number, the storage holds a text
    from which a restart of the module loads exactly t. *)
Theorem setTokens_then_reload (now : Z) (t : Tokens.t) (z : Z) (st : State) :
  tokenMutex st = None ->
  Tokens.accessTokenExpiry t = Num.Finite z ->
  let st1 := setTokens now (Some t) st in
  tokens st1 = Some t
  /\ initial (localStorage st1) = Some (mkState (Some t) (localStorage st1) None ∅ 0 []).
Proof.
  intros Hm Hz. cbv zeta. unfold setTokens, runExclusive. rewrite Hm.
  cbn [dispatch run_worker]. fields. split; [reflexivity |].
  unfold initial. rewrite lookup_insert_eq. cbn [default]. unfold id.
  rewrite parse_stringify_tokens by (now exists z).
  now rewrite tokens_of_to_json.
Qed.

Lemma setTokens_then_reload_witness :
  tokens (setTokens 0 (Some (Tokens.mk "R2" "A2" (Num.Finite 5))) example_state)
  = Some (Tokens.mk "R2" "A2" (Num.Finite 5)).
Proof.
  apply (setTokens_then_reload 0 (Tokens.mk "R2" "A2" (Num.Finite 5)) 5 example_state);
    reflexivity.
Defined.

End StoreFacts.

(** ** Entitlement data *)

Section EntitlementFacts.

Context {collaborators : Collaborators}.


Lemma parseUserData_verified (now : Z) (jwt : string) (appData : AppData.t) :
  jwt <> EmptyString ->
  jwt_verify now jwt = inr appData ->
  parseUserData now (Some jwt) =
  inr (User.mk (Some (AppData.email appData))
         (let subscription :=
            Subscription.mk (AppData.subscription_id appData)
              (getSubscriptionPlanCode (AppData.subscription_plan_id appData))
              (new_Date (AppData.subscription_expiry appData)) in
          if every subscription then Some subscription else None)).
Proof.
  intros Hne Hv. unfold parseUserData.
  destruct jwt as [|c jwt]; [now elim Hne |]. now rewrite Hv.
Qed.





End EntitlementFacts.






(** ** More about the token store *)

Section StoreMore.

Lemma good_for_10min (x : Num.t) :
  Num.leb (Num.Finite (1000 * 60 * 10)) x = true ->
  Num.ltb x (Num.Finite (1000 * 60 * 10)) = false
  /\ Num.gtb x (Num.Finite (1000 * 5)) = true.
Proof.
  destruct x as [z| | |]; cbn; try discriminate; [| now split].
  intros H. apply Z.leb_le in H. split; [apply Z.ltb_ge | apply Z.ltb_lt]; lia.
Qed.

Ltac simpl_state :=
  cbn [tokens localStorage tokenMutex requests nextRequest trace
       set_tokens set_localStorage set_tokenMutex set_requests set_nextRequest
       log setTokens_worker] in *.

(** The state in which a call that takes the blocking branch leaves the
    store. *)
Lemma getToken_blocked_state (now : Z) (caller : nat) (t : Tokens.t) (st : State) :
  tokenMutex st = None ->
  tokens st = Some t ->
  Num.leb (timeUntilExpiry t now) (Num.Finite (1000 * 5)) = true ->
  getToken now caller st =
  mkState (Some t) (localStorage st) (Some [])
    (<[nextRequest st := AwaitedBy caller]> (requests st)) (S (nextRequest st))
    (trace st ++ [OauthToken (nextRequest st) (Tokens.refreshToken t)]).
Proof.
  intros Hm Ht Hle. unfold getToken, runExclusive. rewrite Hm.
  cbn [dispatch run_worker].
  rewrite (getToken_worker_blocking now _ t) by (simpl_state; assumption).
  rewrite (refreshToken_some _ t) by (simpl_state; assumption).
  cbn [fst]. unfold set_requests, log, set_nextRequest, set_tokenMutex.
  simpl_state. now rewrite Ht, insert_insert_eq.
Qed.

(** X1: with the mutex free, getToken() sends nothing to the token
    endpoint when nobody is logged in, or when the access token is good
    for 10 minutes or more: it resolves at once, with undefined in the
    first case and the cached access token in the second, and leaves the
    store as it is. *)
Theorem getToken_without_refresh (now : Z) (caller : nat) (st : State) :
  tokenMutex st = None ->
  (tokens st = None
   \/ exists t, tokens st = Some t
                /\ Num.leb (Num.Finite (1000 * 60 * 10)) (timeUntilExpiry t now) = true) ->
  getToken now caller st =
  mkState (tokens st) (localStorage st) None (requests st) (nextRequest st)
    (trace st ++ [GetTokenSettled caller (Resolved (Tokens.accessToken <$> tokens st))]).
Proof.
  intros Hm Hcase. unfold getToken, runExclusive. rewrite Hm.
  cbn [dispatch run_worker]. unfold getToken_worker. simpl_state.
  destruct Hcase as [Ht|(t & Ht & Hge)]; rewrite Ht.
  - cbn [dispatch]. unfold set_tokenMutex, log. simpl_state. now rewrite Ht.
  - destruct (good_for_10min _ Hge) as [H10 H5].
    rewrite H10, H5. cbn [dispatch]. unfold set_tokenMutex, log. simpl_state.
    now rewrite Ht.
Qed.

Lemma getToken_without_refresh_witness :
  getToken 0 7 example_state =
  mkState (Some example_tokens) example_storage None ∅ 0
    [GetTokenSettled 7 (Resolved (Some "A"%string))].
Proof.
  apply (getToken_without_refresh 0 7 example_state); [reflexivity |].
  right. exists example_tokens. split; reflexivity.
Defined.

(** *** Callers that queue behind a refresh *)

Lemma run_queues_calls (calls : list (Z * nat)) :
  forall st queue,
    tokenMutex st = Some queue ->
    run (getToken_calls calls) st
    = set_tokenMutex (Some (queue ++ map GetTokenWorker (map snd calls))) st.
Proof.
  induction calls as [|[now c] calls IH]; intros st queue Hq.
  - cbn [getToken_calls map run]. rewrite app_nil_r. destruct st. cbn in *. now subst.
  - cbn [getToken_calls map run step fst snd]. unfold getToken, runExclusive.
    rewrite Hq.
    rewrite (IH _ (queue ++ [GetTokenWorker c])) by reflexivity.
    unfold set_tokenMutex. simpl_state. now rewrite <- app_assoc.
Qed.

Lemma dispatch_good_token (now : Z) (callers : list nat) (t : Tokens.t) :
  Num.leb (Num.Finite (1000 * 60 * 10)) (timeUntilExpiry t now) = true ->
  forall st,
    tokens st = Some t ->
    dispatch now (map GetTokenWorker callers) st =
    mkState (Some t) (localStorage st) None (requests st) (nextRequest st)
      (trace st ++ map (fun c => GetTokenSettled c (Resolved (Some (Tokens.accessToken t))))
                       callers).
Proof.
  intros Hge.
  destruct (good_for_10min _ Hge) as [H10 H5].
  induction callers as [|c callers IH]; intros st Ht.
  - cbn [map dispatch]. unfold set_tokenMutex. now rewrite app_nil_r, Ht.
  - cbn [map dispatch run_worker]. unfold getToken_worker. simpl_state.
    rewrite Ht, H10, H5. rewrite IH by exact Ht. simpl_state.
    now rewrite <- app_assoc.
Qed.

(** X2: callers that call getToken() while another call awaits its
    refresh wait for the mutex; when the token endpoint answers with a
    token that is good for 10 minutes or more, the first caller and then
    every waiting caller, in the order of the calls, get the new access
    token, and the token endpoint has been called once. *)
Theorem queued_callers_share_refresh
  (now now' : Z) (caller : nat) (t : Tokens.t) (st : State)
  (calls : list (Z * nat)) (a : string) (expiresIn : Num.t) :
  tokenMutex st = None ->
  tokens st = Some t ->
  Num.leb (timeUntilExpiry t now) (Num.Finite (1000 * 5)) = true ->
  Num.leb (Num.Finite (1000 * 60 * 10))
          (timeUntilExpiry (Tokens.mk (Tokens.refreshToken t) a
                                      (expiry_after now' expiresIn)) now') = true ->
  let st1 := getToken now caller st in
  let st2 := run (getToken_calls calls) st1 in
  let st3 := oauthCallback now' (nextRequest st) (inr (a, expiresIn)) st2 in
  trace st2 = trace st ++ [OauthToken (nextRequest st) (Tokens.refreshToken t)]
  /\ trace st3 = trace st2
                 ++ GetTokenSettled caller (Resolved (Some a))
                 :: map (fun x => GetTokenSettled (snd x) (Resolved (Some a))) calls
  /\ tokens st3 = Some (Tokens.mk (Tokens.refreshToken t) a (expiry_after now' expiresIn))
  /\ tokenMutex st3 = None
  /\ requests st3 = delete (nextRequest st) (requests st).
Proof.
  intros Hm Ht Hle Hgood. cbv zeta.
  rewrite (getToken_blocked_state now caller t st Hm Ht Hle).
  rewrite (run_queues_calls calls _ []) by reflexivity.
  unfold set_tokenMutex. simpl_state. split; [reflexivity |].
  unfold oauthCallback. simpl_state. rewrite lookup_insert_eq.
  cbn [settle outcome_map]. unfold release. simpl_state. cbn [app].
  rewrite (dispatch_good_token now' _
             (Tokens.mk (Tokens.refreshToken t) a (expiry_after now' expiresIn)))
    by first [reflexivity | exact Hgood].
  simpl_state. cbn [Tokens.accessToken].
  rewrite map_map, <- app_assoc, delete_insert_eq. cbn [app]. repeat split.
Qed.

Lemma queued_callers_share_refresh_witness :
  trace (oauthCallback 999900 0 (inr ("B"%string, Num.Finite 3600))
           (run (getToken_calls [(999100%Z, 8); (999200%Z, 9)])
                (getToken 999000 7 example_state)))
  = [OauthToken 0 "R";
     GetTokenSettled 7 (Resolved (Some "B"%string));
     GetTokenSettled 8 (Resolved (Some "B"%string));
     GetTokenSettled 9 (Resolved (Some "B"%string))].
Proof.
  pose proof (queued_callers_share_refresh 999000 999900 7 example_tokens example_state
                [(999100%Z, 8); (999200%Z, 9)] "B"%string (Num.Finite 3600)
                eq_refl eq_refl) as H.
  cbv zeta in H.
  destruct H as (H2 & H3 & _); [reflexivity | reflexivity |].
  rewrite H2 in H3. exact H3.
Defined.



(** *** Logins and logouts that queue behind a refresh *)

Lemma run_queues_requests (inputs : list (Z * Input)) :
  logins_and_logouts inputs = true ->
  forall st queue,
    tokenMutex st = Some queue ->
    exists events,
      run inputs st =
      mkState (tokens st) (localStorage st) (Some (queue ++ requested_workers inputs))
              (requests st) (nextRequest st) (trace st ++ events).
Proof.
  induction inputs as [|[now i] inputs IH]; intros Hall st queue Hq.
  - exists []. cbn [run requested_workers flat_map]. rewrite !app_nil_r.
    destruct st. cbn in *. now subst.
  - cbn [logins_and_logouts forallb] in Hall. apply andb_prop in Hall as [Hi Hall].
    unfold requested in Hi. cbn [snd] in Hi.
    destruct i as [c|a r e| |r reply]; try discriminate Hi; cbn [run step].
    + unfold authenticated, setTokens, runExclusive. rewrite Hq.
      match goal with |- context [run inputs ?s] =>
        destruct (IH Hall s _ eq_refl) as [events ->] end.
      exists events. simpl_state. cbn [requested_workers flat_map requested snd fst app].
      unfold expiry_after.
      now rewrite <- app_assoc.
    + unfold logOut, setTokens, runExclusive. simpl_state. rewrite Hq.
      destruct (IH Hall (set_tokenMutex (Some (queue ++ [SetTokensWorker None]))
                                        (log (Emitted "logout") st)) _ eq_refl)
        as [events ->].
      exists (Emitted "logout" :: events). simpl_state.
      cbn [requested_workers flat_map requested snd fst app].
      now rewrite <- !app_assoc.
Qed.

Lemma dispatch_requested (inputs : list (Z * Input)) :
  logins_and_logouts inputs = true ->
  forall now st,
    dispatch now (requested_workers inputs) st =
    mkState (last_requested inputs (tokens st)) (storage_after inputs (localStorage st))
            None (requests st) (nextRequest st) (trace st).
Proof.
  induction inputs as [|[n i] inputs IH]; intros Hall now st; [reflexivity |].
  cbn [logins_and_logouts forallb] in Hall. apply andb_prop in Hall as [Hi Hall].
  destruct (requested (n, i)) as [x|] eqn:Hx; [| discriminate Hi].
  cbn [requested_workers flat_map]. rewrite Hx. cbn [app].
  fold (requested_workers inputs). cbn [dispatch run_worker].
  rewrite (IH Hall). cbn [last_requested storage_after fold_left]. rewrite Hx.
  reflexivity.
Qed.

Lemma storage_after_mirrors (inputs : list (Z * Input)) :
  forall storage x,
    storage !! "tokens"%string = Some (JSON.stringify (tokens_to_json x)) ->
    storage_after inputs storage !! "tokens"%string
    = Some (JSON.stringify (tokens_to_json (last_requested inputs x))).
Proof.
  induction inputs as [|i inputs IH]; intros storage x H; [exact H |].
  cbn [storage_after last_requested fold_left].
  destruct (requested i) as [y|]; apply IH; [apply lookup_insert_eq | exact H].
Qed.

(** X3: logins and logouts that arrive while a getToken() call awaits
    its refresh change nothing until the token endpoint answers; then,
    whether the refresh succeeded or failed, they are applied in the
    order they came, after the result of the refresh: the store ends with
    what the last of them asked for, in memory and in the storage, and
    the mutex is free. *)
Theorem queued_logins_apply_after_refresh
  (now now' : Z) (caller : nat) (t : Tokens.t) (st : State)
  (inputs : list (Z * Input)) (reply : Error + string * Num.t) :
  tokenMutex st = None ->
  tokens st = Some t ->
  Num.leb (timeUntilExpiry t now) (Num.Finite (1000 * 5)) = true ->
  logins_and_logouts inputs = true ->
  inputs <> [] ->
  let st1 := getToken now caller st in
  let st2 := run inputs st1 in
  let st3 := oauthCallback now' (nextRequest st) reply st2 in
  tokens st2 = Some t
  /\ localStorage st2 = localStorage st
  /\ tokens st3 = last_requested inputs (Some (refreshed_tokens now' t reply))
  /\ localStorage st3 !! "tokens"%string
     = Some (JSON.stringify (tokens_to_json (tokens st3)))
  /\ tokenMutex st3 = None.
Proof.
  intros Hm Ht Hle Hall Hne. cbv zeta.
  rewrite (getToken_blocked_state now caller t st Hm Ht Hle).
  match goal with |- context [run inputs ?s] =>
    destruct (run_queues_requests inputs Hall s [] eq_refl) as [events ->] end.
  simpl_state. cbn [app]. split; [reflexivity |]. split; [reflexivity |].
  unfold oauthCallback. simpl_state. rewrite lookup_insert_eq.
  assert (Hlast : forall x s,
    storage_after inputs s !! "tokens"%string
    = Some (JSON.stringify (tokens_to_json (last_requested inputs x)))).
  { intros x s. destruct inputs as [|i inputs]; [now elim Hne |].
    cbn [logins_and_logouts forallb] in Hall. apply andb_prop in Hall as [Hi _].
    cbn [storage_after last_requested fold_left].
    destruct (requested i) as [z|]; [| discriminate Hi].
    apply storage_after_mirrors, lookup_insert_eq. }
  destruct reply as [e|[a expiresIn]]; cbn [settle refreshed_tokens];
    unfold release; simpl_state; rewrite (dispatch_requested inputs Hall);
    simpl_state; (split; [reflexivity |]); (split; [| reflexivity]);
    apply Hlast.
Qed.

Lemma queued_logins_apply_after_refresh_witness :
  tokens (oauthCallback 999900 0 (inr ("B"%string, Num.Finite 3600))
            (run [(999100%Z, LogOut); (999200%Z, Authenticated "A2" "R2" (Num.Finite 60))]
                 (getToken 999000 7 example_state)))
  = Some (Tokens.mk "R2" "A2" (Num.Finite 1059200)).
Proof.
  pose proof (queued_logins_apply_after_refresh 999000 999900 7 example_tokens
                example_state
                [(999100%Z, LogOut); (999200%Z, Authenticated "A2" "R2" (Num.Finite 60))]
                (inr ("B"%string, Num.Finite 3600)) eq_refl eq_refl) as H.
  cbv zeta in H.
  destruct H as (_ & _ & H3 & _);
    [reflexivity | reflexivity | discriminate |].
  exact H3.
Defined.

(** *** A background refresh answered late *)

(** X4: the callback of the token endpoint writes into whatever session
    is current when the answer comes.  When the background refresh of one
    session is answered after another login, the stored session keeps the
    refresh token of the new login and gets the access token and expiry
    of the answer, in memory and in the storage; nothing tells the
    callers. *)
Theorem late_refresh_writes_into_new_session
  (now now1 now2 : Z) (caller : nat) (t : Tokens.t) (st : State)
  (a1 r1 : string) (e1 : Num.t) (a2 : string) (e2 : Num.t) :
  tokenMutex st = None ->
  tokens st = Some t ->
  Num.ltb (Num.Finite (1000 * 5)) (timeUntilExpiry t now) = true
  /\ Num.ltb (timeUntilExpiry t now) (Num.Finite (1000 * 60 * 10)) = true ->
  let st1 := getToken now caller st in
  let st2 := authenticated now1 a1 r1 e1 st1 in
  let st3 := oauthCallback now2 (nextRequest st) (inr (a2, e2)) st2 in
  tokens st2 = Some (Tokens.mk r1 a1 (expiry_after now1 e1))
  /\ tokens st3 = Some (Tokens.mk r1 a2 (expiry_after now2 e2))
  /\ localStorage st3 !! "tokens"%string
     = Some (JSON.stringify
               (tokens_to_json (Some (Tokens.mk r1 a2 (expiry_after now2 e2)))))
  /\ trace st3 = trace st1.
Proof.
  intros Hm Ht Hwin. cbv zeta.
  rewrite (getToken_in_window now caller t st Hm Ht Hwin).
  unfold authenticated, setTokens, runExclusive. simpl_state.
  cbn [dispatch run_worker]. simpl_state. split; [reflexivity |].
  unfold oauthCallback. simpl_state. rewrite lookup_insert_eq.
  cbn [settle Tokens.refreshToken]. simpl_state.
  split; [reflexivity |]. split; [apply lookup_insert_eq | reflexivity].
Qed.

Lemma late_refresh_writes_into_new_session_witness :
  tokens (oauthCallback 900500 0 (inr ("B"%string, Num.Finite 3600))
            (authenticated 900100 "A2" "R2" (Num.Finite 7200)
               (getToken 900000 7 example_state)))
  = Some (Tokens.mk "R2" "B" (Num.Finite 4500500)).
Proof.
  pose proof (late_refresh_writes_into_new_session 900000 900100 900500 7
                example_tokens example_state "A2" "R2" (Num.Finite 7200) "B" (Num.Finite 3600)
                eq_refl eq_refl) as H.
  cbv zeta in H. destruct H as (_ & H & _); [split; reflexivity |]. exact H.
Defined.

(** X5: when the background refresh is answered after a logout, the
    store stays logged out, in memory and in the storage.  A successful
    answer makes the callback throw on the null [tokens] (an uncaught
    TypeError), an error leaves an unhandled rejection; the mutex is free
    either way. *)
Theorem late_refresh_after_logout
  (now now1 now2 : Z) (caller : nat) (t : Tokens.t) (st : State)
  (reply : Error + string * Num.t) :
  tokenMutex st = None ->
  tokens st = Some t ->
  Num.ltb (Num.Finite (1000 * 5)) (timeUntilExpiry t now) = true
  /\ Num.ltb (timeUntilExpiry t now) (Num.Finite (1000 * 60 * 10)) = true ->
  let st1 := getToken now caller st in
  let st2 := logOut now1 st1 in
  let st3 := oauthCallback now2 (nextRequest st) reply st2 in
  tokens st3 = None
  /\ localStorage st3 !! "tokens"%string = Some "null"%string
  /\ tokenMutex st3 = None
  /\ trace st3 = trace st1 ++ [Emitted "logout";
                               match reply with
                               | inl e => UnhandledRejection e
                               | inr _ => UncaughtTypeError
                               end].
Proof.
  intros Hm Ht Hwin. cbv zeta.
  rewrite (getToken_in_window now caller t st Hm Ht Hwin).
  unfold logOut, setTokens, runExclusive. simpl_state.
  cbn [dispatch run_worker]. simpl_state.
  unfold oauthCallback. simpl_state. rewrite lookup_insert_eq.
  destruct reply as [e|[a expiresIn]]; cbn [settle]; simpl_state;
    rewrite <- ?app_assoc; cbn [app];
    (split; [reflexivity |]); (split; [apply lookup_insert_eq |]);
    split; reflexivity.
Qed.

Lemma late_refresh_after_logout_witness :
  trace (oauthCallback 900500 0 (inr ("B"%string, Num.Finite 3600))
           (logOut 900100 (getToken 900000 7 example_state)))
  = [OauthToken 0 "R"; GetTokenSettled 7 (Resolved (Some "A"%string));
     Emitted "logout"; UncaughtTypeError].
Proof.
  pose proof (late_refresh_after_logout 900000 900100 900500 7 example_tokens
                example_state (inr ("B"%string, Num.Finite 3600)) eq_refl eq_refl) as H.
  cbv zeta in H. destruct H as (_ & _ & _ & H); [split; reflexivity |]. exact H.
Defined.

(** *** A refresh that is never answered *)

Lemma waiting_step_session (now : Z) (i : Input) (st : State) (r caller : nat)
  (t : Tokens.t) :
  Inv st ->
  requests st !! r = Some (AwaitedBy caller) ->
  tokens st = Some t ->
  answers r i = false ->
  exists t', tokens (step now i st) = Some t'
             /\ Tokens.refreshToken t' = Tokens.refreshToken t.
Proof.
  intros HI Hr Ht Hi.
  assert (Ha : awaited st r) by now exists caller.
  destruct (inv_held st HI r Ha) as [Hm _].
  destruct (tokenMutex st) as [queue|] eqn:Hq; [clear Hm | now elim Hm].
  destruct i as [c|a rt e| |r' reply]; cbn [step].
  - exists t. unfold getToken, runExclusive. rewrite Hq. simpl_state. now split.
  - exists t. unfold authenticated, setTokens, runExclusive. rewrite Hq. simpl_state.
    now split.
  - exists t. unfold logOut, setTokens, runExclusive. simpl_state. rewrite Hq.
    simpl_state. now split.
  - cbn [answers] in Hi. apply Nat.eqb_neq in Hi. unfold oauthCallback.
    destruct (requests st !! r') as [[|c']|] eqn:Hr'.
    + destruct reply as [e|[a expiresIn]]; cbn [settle]; simpl_state.
      * exists t. now split.
      * rewrite Ht. simpl_state. eexists. split; reflexivity.
    + elim Hi. apply (inv_unique st HI); [now exists c' | exact Ha].
    + exists t. now split.
Qed.

Lemma waiting_run_session (inputs : list (Z * Input)) (r caller : nat) :
  forall st t,
    Inv st ->
    requests st !! r = Some (AwaitedBy caller) ->
    tokens st = Some t ->
    unanswered r inputs = true ->
    exists t', tokens (run inputs st) = Some t'
               /\ Tokens.refreshToken t' = Tokens.refreshToken t.
Proof.
  induction inputs as [|[now i] inputs IH]; intros st t HI Hr Ht Hin.
  - exists t. now split.
  - cbn [unanswered forallb snd] in Hin. apply andb_prop in Hin as [Hi Hin].
    apply negb_true_iff in Hi.
    destruct (waiting_step_session now i st r caller t HI Hr Ht Hi) as (t1 & Ht1 & E1).
    destruct (waiting_step now i st r caller HI Hr Hi) as [Hr1 _].
    destruct (IH (step now i st) t1 (step_inv now i st HI) Hr1 Ht1 Hin)
      as (t2 & Ht2 & E2).
    exists t2. cbn [run]. split; [exact Ht2 | congruence].
Qed.

(** X6: nothing bounds the wait for the token endpoint.  As long as the
    refresh that a getToken() call awaits is not answered, whatever else
    is called or answered, the mutex stays held and no login or logout
    takes effect: the store still holds a session with the same refresh
    token. *)
Theorem unanswered_refresh_blocks_the_store
  (now : Z) (caller : nat) (t : Tokens.t) (st : State) (inputs : list (Z * Input)) :
  reachable st ->
  tokenMutex st = None ->
  tokens st = Some t ->
  Num.leb (timeUntilExpiry t now) (Num.Finite (1000 * 5)) = true ->
  unanswered (nextRequest st) inputs = true ->
  let st2 := run inputs (getToken now caller st) in
  tokenMutex st2 <> None
  /\ exists t', tokens st2 = Some t'
                /\ Tokens.refreshToken t' = Tokens.refreshToken t.
Proof.
  intros Hreach Hm Ht Hle Hin. cbv zeta.
  pose proof (runExclusive_inv now (GetTokenWorker caller) st (reachable_inv st Hreach))
    as HI1.
  fold (getToken now caller st) in HI1.
  pose proof (getToken_blocked_state now caller t st Hm Ht Hle) as E.
  assert (Hr1 : requests (getToken now caller st) !! nextRequest st
                = Some (AwaitedBy caller))
    by (rewrite E; apply lookup_insert_eq).
  assert (Ht1 : tokens (getToken now caller st) = Some t) by now rewrite E.
  destruct (waiting_run inputs (nextRequest st) caller _ HI1 Hr1 Hin) as (HI2 & Hr2 & _).
  split.
  - apply (inv_held _ HI2 (nextRequest st)). now exists caller.
  - exact (waiting_run_session inputs (nextRequest st) caller _ t HI1 Hr1 Ht1 Hin).
Qed.

Lemma unanswered_refresh_blocks_the_store_witness :
  tokenMutex (run [(999100%Z, LogOut); (999200%Z, CallGetToken 8)]
                  (getToken 999000 7 example_state)) <> None.
Proof.
  apply (unanswered_refresh_blocks_the_store 999000 7 example_tokens example_state
           [(999100%Z, LogOut); (999200%Z, CallGetToken 8)]);
    [exact example_reachable | reflexivity | reflexivity
     | reflexivity | reflexivity].
Defined.
(** *** A session whose expiry is not a time *)

(** X11: a session whose expiry is NaN (a login event without
    [expiresIn]) or Infinity is never refreshed.  With the mutex free,
    at whatever time it is called, getToken() calls nothing and leaves
    the store as it is; it resolves with null when the expiry is NaN and
    with the cached access token when it is Infinity. *)
Theorem session_never_refreshed (now : Z) (caller : nat) (t : Tokens.t) (st : State) :
  tokenMutex st = None ->
  tokens st = Some t ->
  Tokens.accessTokenExpiry t = Num.NaN \/ Tokens.accessTokenExpiry t = Num.PosInfinity ->
  getToken now caller st =
  log (GetTokenSettled caller
         (Resolved (match Tokens.accessTokenExpiry t with
                    | Num.NaN => None
                    | _ => Some (Tokens.accessToken t)
                    end))) st.
Proof.
  intros Hm Ht He. unfold getToken, runExclusive. rewrite Hm.
  cbn [dispatch run_worker]. unfold getToken_worker, timeUntilExpiry. simpl_state.
  rewrite Ht. destruct He as [-> | ->]; cbn; unfold set_tokenMutex, log; simpl_state;
    destruct st; cbn in *; now subst.
Qed.

Lemma session_never_refreshed_witness :
  getToken 2000 7 (step 1000 (Authenticated "A" "R" Num.NaN) logged_out_state)
  = log (GetTokenSettled 7 (Resolved None))
        (step 1000 (Authenticated "A" "R" Num.NaN) logged_out_state).
Proof.
  apply (session_never_refreshed 2000 7 (Tokens.mk "R" "A" Num.NaN)
           (step 1000 (Authenticated "A" "R" Num.NaN) logged_out_state));
    [reflexivity | reflexivity | now left].
Defined.


End StoreMore.

(** ** More about the entitlement data *)

Section EntitlementMore.

Context {collaborators : Collaborators}.

(** X7: getLastUserData() never throws.  Without a stored payload, or
    with the empty string stored, it gives the empty user and warns of
    nothing; with a payload that jwt.verify rejects it warns once and
    gives the empty user; with a payload that jwt.verify accepts it gives
    the user parsed from it. *)
Theorem getLastUserData_cases (now : Z) (storage : gmap string string) :
  ((storage !! "last_jwt"%string = None
    \/ storage !! "last_jwt"%string = Some EmptyString) ->
   getLastUserData now storage = (User.empty, []))
  /\ (forall jwt e,
        storage !! "last_jwt"%string = Some jwt ->
        jwt <> EmptyString ->
        jwt_verify now jwt = inl e ->
        getLastUserData now storage = (User.empty, [Warned]))
  /\ (forall jwt appData,
        storage !! "last_jwt"%string = Some jwt ->
        jwt <> EmptyString ->
        jwt_verify now jwt = inr appData ->
        exists user,
          getLastUserData now storage = (user, [])
          /\ parseUserData now (Some jwt) = inr user
          /\ User.email user = Some (AppData.email appData)).
Proof.
  unfold getLastUserData. repeat split.
  - intros [-> | ->]; reflexivity.
  - intros jwt e -> Hne Hv. unfold parseUserData.
    destruct jwt; [now elim Hne |]. now rewrite Hv.
  - intros jwt appData -> Hne Hv.
    rewrite (parseUserData_verified now jwt appData Hne Hv).
    eexists. repeat split.
Qed.



(** X9: when the request resolves with a payload on which parseUserData
    does not throw, getLatestUserData() resolves with the parsed user and
    stores the payload, and a getLastUserData() on that storage, at the
    same time, gives the same user without a warning. *)
Theorem getLatestUserData_then_getLastUserData
  (now : Z) (w : World) (storage : gmap string string)
  (userJwt : string) (user : User.t SubscriptionPlanCode) :
  fst (requestUserData w) = Resolved userJwt ->
  parseUserData (resumed_at w) (Some userJwt) = inr user ->
  fst (fst (getLatestUserData now w storage)) = Resolved user
  /\ snd (fst (getLatestUserData now w storage))
     = <["last_jwt"%string := userJwt]> (meanwhile w storage)
  /\ getLastUserData (resumed_at w) (snd (fst (getLatestUserData now w storage)))
     = (user, []).
Proof.
  intros Hreq Hparse.
  assert (E : exists events,
    getLatestUserData now w storage =
    (Resolved user, <["last_jwt"%string := userJwt]> (meanwhile w storage), events)).
  { unfold getLatestUserData, getLatestUserData_try.
    destruct (getLastUserData now storage) as [lastUserData warned].
    destruct (requestUserData w) as [requested fetched]. cbn [fst] in Hreq.
    rewrite Hreq, Hparse. eexists. reflexivity. }
  destruct E as [events ->]. cbn [fst snd].
  split; [reflexivity |]. split; [reflexivity |].
  unfold getLastUserData. now rewrite lookup_insert_eq, Hparse.
Qed.


(** X10: the status of the answer plays no part.  Whatever status the
    entitlement endpoint answers with, getLatestUserData() does the same
    with the same body: it returns the same user, leaves the same storage
    and reports the same. *)
Theorem status_is_not_read (status : Z) (now : Z) (w : World)
  (storage : gmap string string) :
  getLatestUserData now (with_status status w) storage
  = getLatestUserData now w storage.
Proof.
  assert (E : requestUserData (with_status status w) = requestUserData w).
  { unfold requestUserData, with_status. cbn [token_outcome fetch_outcome].
    destruct (token_outcome w) as [[[|c token]|]|e]; try reflexivity.
    now destruct (fetch_outcome w _). }
  unfold getLatestUserData, getLatestUserData_try. rewrite E. reflexivity.
Qed.

End EntitlementMore.

Lemma getLastUserData_cases_witness :
  getLastUserData 0 {[ "last_jwt"%string := "bad.jwt"%string ]}
  = (User.empty, [Warned]).
Proof.
  apply (proj1 (proj2 (getLastUserData_cases 0
                         {[ "last_jwt"%string := "bad.jwt"%string ]}))
               "bad.jwt"%string "invalid signature"%string);
    [reflexivity | discriminate | reflexivity].
Defined.

Lemma getLatestUserData_then_getLastUserData_witness :
  getLastUserData 5
    (snd (fst (getLatestUserData 0
                 (mkWorld (Resolved (Some "token"%string))
                          (fun _ => Resolved (Response.mk 200 (Resolved "good.jwt"%string)))
                          id 5) ∅)))
  = (User.mk (Some "a@b.c"%string) None, []).
Proof.
  exact (proj2 (proj2 (getLatestUserData_then_getLastUserData 0
                  (mkWorld (Resolved (Some "token"%string))
                           (fun _ => Resolved (Response.mk 200 (Resolved "good.jwt"%string)))
                          id 5) ∅
                  "good.jwt"%string (User.mk (Some "a@b.c"%string) None)
                  eq_refl eq_refl))).
Defined.


(** ** The login dialog *)

Module LoginFacts.
Import Login.

Ltac session :=
  cbn [listeners dialogs lock store] in *.

Lemma settle_dialog_rest (d : nat) (o : Outcome bool) (s : Session) :
  listeners (settle_dialog d o s) = listeners s
  /\ lock (settle_dialog d o s) = lock s
  /\ store (settle_dialog d o s) = store s
  /\ length (dialogs (settle_dialog d o s)) = length (dialogs s).
Proof.
  unfold settle_dialog. destruct (dialogs s !! d) as [[x|]|]; session; repeat split.
  apply length_insert.
Qed.

Lemma settle_pending (d : nat) (o : Outcome bool) (s : Session) :
  dialogs s !! d = Some None ->
  dialogs (settle_dialog d o s) !! d = Some (Some o).
Proof.
  intros Hp. unfold settle_dialog. rewrite Hp. session.
  apply list_lookup_insert_eq. now apply lookup_lt_Some in Hp.
Qed.

Lemma settle_other (d d' : nat) (o : Outcome bool) (s : Session) :
  d <> d' \/ dialogs s !! d <> Some None ->
  dialogs (settle_dialog d o s) !! d' = dialogs s !! d'.
Proof.
  intros Hd. unfold settle_dialog.
  destruct (dialogs s !! d) as [[x|]|] eqn:Hp; session; try reflexivity.
  destruct Hd as [Hne|Hne]; [| now elim Hne].
  now apply list_lookup_insert_ne.
Qed.

Lemma settle_cases (d d' : nat) (o : Outcome bool) (s : Session) :
  dialogs (settle_dialog d o s) !! d' = dialogs s !! d'
  \/ (d = d' /\ dialogs s !! d' = Some None
      /\ dialogs (settle_dialog d o s) !! d' = Some (Some o)).
Proof.
  destruct (decide (d = d')) as [<-|Hne]; [| left; apply settle_other; now left].
  destruct (dialogs s !! d) as [[x|]|] eqn:Hp.
  - left. rewrite <- Hp. apply settle_other. right. congruence.
  - right. split; [reflexivity |]. split; [reflexivity |]. now apply settle_pending.
  - left. rewrite <- Hp. apply settle_other. right. congruence.
Qed.

Lemma call_rest (now : Z) (sig : Signal) (l : Listener) (s : Session) :
  listeners (call now sig l s) = listeners s
  /\ length (dialogs (call now sig l s)) = length (dialogs s).
Proof.
  destruct l, sig; cbn [call]; session; try (split; reflexivity);
    split; apply settle_dialog_rest.
Qed.

(** The listeners of the module and those of the dialogs, under the
    event they are registered for. *)
Lemma call_settles_or_keeps (now : Z) (sig : Signal) (r : Registration) (n d : nat)
  (s : Session) :
  In r (module_listeners) \/ placed n r ->
  event r = event_of sig ->
  settles_or_keeps sig d s (call now sig (listener r) s).
Proof.
  intros Hr He. unfold settles_or_keeps.
  destruct Hr as [Hr|(d0 & _ & Hr)].
  - cbn in Hr. destruct Hr as [<-|[<-|[<-|[]]]]; cbn [listener call]; left;
      destruct sig; reflexivity.
  - cbn in Hr. destruct Hr as [<-|[<-|[<-|[<-|[]]]]]; cbn [listener event] in *;
      destruct sig; try discriminate He; cbn [call verdict];
      match goal with |- context [settle_dialog ?a ?o s] =>
        destruct (settle_cases a d o s) as [E|(_ & Hp & E)];
          [now left | right; split; [exact Hp | now exists o]] end.
Qed.

Lemma call_settles (now : Z) (sig : Signal) (r : Registration) (d : nat) (s : Session) :
  In r (dialog_listeners d) ->
  event r = event_of sig ->
  dialogs s !! d = Some None ->
  exists o, verdict sig = Some o
            /\ dialogs (call now sig (listener r) s) !! d = Some (Some o).
Proof.
  intros Hr He Hp. cbn in Hr.
  destruct Hr as [<-|[<-|[<-|[<-|[]]]]]; cbn [listener event] in *;
    destruct sig; try discriminate He; cbn [call verdict];
    eexists; (split; [reflexivity | now apply settle_pending]).
Qed.

Lemma settles_or_keeps_trans (sig : Signal) (d : nat) (s1 s2 s3 : Session) :
  settles_or_keeps sig d s1 s2 -> settles_or_keeps sig d s2 s3 ->
  settles_or_keeps sig d s1 s3.
Proof.
  unfold settles_or_keeps.
  intros [E12|(Hp1 & o & Hv & E2)] [E23|(Hp2 & o' & Hv' & E3)].
  - left. congruence.
  - right. split; [congruence | now exists o'].
  - right. split; [exact Hp1 |]. exists o. split; [exact Hv | congruence].
  - congruence.
Qed.

Lemma calls_rest (now : Z) (sig : Signal) (rs : list Registration) :
  forall s,
    listeners (fold_left (fun s' r => call now sig (listener r) s') rs s) = listeners s
    /\ length (dialogs (fold_left (fun s' r => call now sig (listener r) s') rs s))
       = length (dialogs s).
Proof.
  induction rs as [|r rs IH]; intros s; [now split |].
  cbn [fold_left]. destruct (IH (call now sig (listener r) s)) as [-> ->].
  apply call_rest.
Qed.

Lemma calls_settle_or_keep (now : Z) (sig : Signal) (n d : nat) (rs : list Registration) :
  (forall r, In r rs ->
     (In r (module_listeners) \/ placed n r)
     /\ event r = event_of sig) ->
  forall s,
    settles_or_keeps sig d s (fold_left (fun s' r => call now sig (listener r) s') rs s).
Proof.
  induction rs as [|r rs IH]; intros Hrs s; [now left |].
  cbn [fold_left].
  apply (settles_or_keeps_trans sig d s (call now sig (listener r) s)).
  - destruct (Hrs r (or_introl eq_refl)) as [Hr He].
    now apply (call_settles_or_keeps now sig r n d s).
  - apply IH. intros r' Hr'. apply Hrs. now right.
Qed.

Lemma calls_settle (now : Z) (sig : Signal) (n d : nat) (rs : list Registration)
  (r : Registration) :
  (forall r, In r rs ->
     (In r (module_listeners) \/ placed n r)
     /\ event r = event_of sig) ->
  In r rs ->
  In r (dialog_listeners d) ->
  forall s,
    dialogs s !! d = Some None ->
    exists o, verdict sig = Some o
              /\ dialogs (fold_left (fun s' r => call now sig (listener r) s') rs s) !! d
                 = Some (Some o).
Proof.
  induction rs as [|r0 rs IH]; intros Hrs Hin Hd s Hp; [destruct Hin |].
  cbn [fold_left].
  assert (Hrest : forall r', In r' rs ->
            (In r' (module_listeners) \/ placed n r')
            /\ event r' = event_of sig)
    by (intros r' Hr'; apply Hrs; now right).
  pose proof (calls_settle_or_keep now sig n d rs Hrest (call now sig (listener r0) s))
    as Hlater.
  assert (Hdone : forall o,
            verdict sig = Some o ->
            dialogs (call now sig (listener r0) s) !! d = Some (Some o) ->
            exists o, verdict sig = Some o
              /\ dialogs (fold_left (fun s' r => call now sig (listener r) s') rs
                            (call now sig (listener r0) s)) !! d = Some (Some o)).
  { intros o Hv E. exists o. split; [exact Hv |].
    destruct Hlater as [-> | (Hp' & _)]; [exact E | congruence]. }
  destruct Hin as [<-|Hin].
  - destruct (Hrs r0 (or_introl eq_refl)) as [_ He].
    destruct (call_settles now sig r0 d s Hd He Hp) as (o & Hv & E).
    now apply (Hdone o).
  - destruct (Hrs r0 (or_introl eq_refl)) as [Hr0 He0].
    destruct (call_settles_or_keeps now sig r0 n d s Hr0 He0) as [E|(_ & o & Hv & E)].
    + apply (IH Hrest Hin Hd). congruence.
    + now apply (Hdone o).
Qed.

(** *** The invariant of the listeners *)

Lemma filter_app_list (f : Registration -> bool) (a b : list Registration) :
  List.filter f (a ++ b) = List.filter f a ++ List.filter f b.
Proof. induction a as [|x a IH]; cbn; [reflexivity |]. destruct (f x); cbn; now rewrite IH. Qed.

Lemma emit_rest (now : Z) (sig : Signal) (s : Session) :
  listeners (emit now sig s)
  = List.filter (fun r => negb (once r && registered_for (event_of sig) r)) (listeners s)
  /\ length (dialogs (emit now sig s)) = length (dialogs s).
Proof.
  unfold emit.
  match goal with |- context [fold_left ?f ?rs ?s0] =>
    destruct (calls_rest now sig rs s0) as [-> ->] end.
  now split.
Qed.

Lemma called_are_placed (sig : Signal) (s : Session) :
  Inv s ->
  forall r,
    In r (List.filter (registered_for (event_of sig)) (listeners s)) ->
    (In r module_listeners \/ placed (length (dialogs s)) r)
    /\ event r = event_of sig.
Proof.
  intros [(onces & E & Hall) _] r Hr. apply filter_In in Hr as [Hr He].
  split; [| now apply String.eqb_eq in He].
  rewrite E in Hr. apply in_app_or in Hr as [Hr|Hr]; [now left | right].
  rewrite Forall_forall in Hall. apply Hall. now apply list_elem_of_In.
Qed.

Lemma emit_settles_or_keeps (now : Z) (sig : Signal) (d : nat) (s : Session) :
  Inv s -> settles_or_keeps sig d s (emit now sig s).
Proof.
  intros HI. unfold emit.
  pose proof (calls_settle_or_keep now sig (length (dialogs s)) d _
                (called_are_placed sig s HI)
                (mkSession
                   (List.filter (fun r => negb (once r && registered_for (event_of sig) r))
                                (listeners s))
                   (dialogs s) (lock s) (store s))) as H.
  exact H.
Qed.

Lemma emit_settles (now : Z) (sig : Signal) (d : nat) (o : Outcome bool) (s : Session) :
  Inv s ->
  dialogs s !! d = Some None ->
  verdict sig = Some o ->
  dialogs (emit now sig s) !! d = Some (Some o).
Proof.
  intros HI Hp Hv.
  assert (Hr : exists r, In r (dialog_listeners d) /\ event r = event_of sig).
  { destruct sig; try discriminate Hv;
      [exists (mkRegistration "unrecoverable_error" true (Reject d))
      |exists (mkRegistration "authorization_error" true (Reject d))
      |exists (mkRegistration "hide" true (Resolve d false))
      |exists (mkRegistration "user_data_loaded" true (Resolve d true))];
      (split; [cbn; tauto | reflexivity]). }
  destruct Hr as (r & Hd & He).
  assert (Hcalled : In r (List.filter (registered_for (event_of sig)) (listeners s))).
  { apply filter_In. split; [now apply (inv_pending s HI d Hp) |].
    now apply String.eqb_eq. }
  unfold emit.
  destruct (calls_settle now sig (length (dialogs s)) d _ r
              (called_are_placed sig s HI) Hcalled Hd
              (mkSession
                 (List.filter (fun r => negb (once r && registered_for (event_of sig) r))
                              (listeners s))
                 (dialogs s) (lock s) (store s)) Hp) as (o' & Hv' & E).
  congruence.
Qed.

Lemma session_emit_inv (now : Z) (sig : Signal) (s : Session) : Inv s -> Inv (emit now sig s).
Proof.
  intros HI. destruct (emit_rest now sig s) as [El En].
  split.
  - destruct (inv_listeners s HI) as (onces & E & Hall).
    exists (List.filter (fun r => negb (once r && registered_for (event_of sig) r)) onces).
    split.
    + rewrite El, E, filter_app_list. reflexivity.
    + rewrite En. rewrite Forall_forall in *. intros r Hr.
      apply list_elem_of_In, filter_In in Hr as [Hr _]. apply Hall.
      now apply list_elem_of_In.
  - intros d Hp r Hr.
    assert (Hp0 : dialogs s !! d = Some None).
    { destruct (emit_settles_or_keeps now sig d s HI) as [E|(_ & o & _ & E)]; congruence. }
    rewrite El. apply filter_In. split; [now apply (inv_pending s HI d Hp0) |].
    destruct (registered_for (event_of sig) r) eqn:He; [| now rewrite andb_false_r].
    apply String.eqb_eq in He.
    assert (Hcalled : In r (List.filter (registered_for (event_of sig)) (listeners s))).
    { apply filter_In. split; [now apply (inv_pending s HI d Hp0) |].
      now apply String.eqb_eq. }
    destruct (calls_settle now sig (length (dialogs s)) d _ r
                (called_are_placed sig s HI) Hcalled Hr
                (mkSession
                   (List.filter (fun r => negb (once r && registered_for (event_of sig) r))
                                (listeners s))
                   (dialogs s) (lock s) (store s)) Hp0) as (o & _ & E).
    unfold emit in Hp. congruence.
Qed.

Lemma showLoginDialog_inv (s : Session) : Inv s -> Inv (fst (showLoginDialog s)).
Proof.
  intros HI. unfold showLoginDialog. cbn [fst]. split; session.
  - destruct (inv_listeners s HI) as (onces & E & Hall).
    exists (onces ++ dialog_listeners (length (dialogs s))).
    split; [now rewrite E, app_assoc |].
    rewrite length_app. cbn [length]. apply Forall_app. split.
    + rewrite Forall_forall in *. intros r Hr.
      destruct (Hall r Hr) as (d & Hd & Hin). exists d. split; [lia | exact Hin].
    + rewrite Forall_forall. intros r Hr. exists (length (dialogs s)).
      split; [lia | now apply list_elem_of_In].
  - intros d Hp r Hr. apply in_or_app.
    destruct (decide (d < length (dialogs s))) as [Hlt|Hge].
    + left. rewrite lookup_app_l in Hp by exact Hlt. now apply (inv_pending s HI d Hp).
    + right. assert (d = length (dialogs s)) as ->; [| exact Hr].
      apply lookup_lt_Some in Hp. rewrite length_app in Hp. cbn [length] in Hp. lia.
Qed.

Lemma session_turn_inv (now : Z) (t : Turn) (s : Session) : Inv s -> Inv (turn now t s).
Proof.
  intros HI. destruct t as [|sig|i]; cbn [turn].
  - now apply showLoginDialog_inv.
  - now apply session_emit_inv.
  - destruct HI as [Hl Hp]. split; session; assumption.
Qed.

Lemma session_run_inv (turns : list (Z * Turn)) : forall s, Inv s -> Inv (run turns s).
Proof.
  induction turns as [|[now t] turns IH]; intros s HI; [exact HI |].
  cbn [run]. apply IH. now apply session_turn_inv.
Qed.

Lemma session_reachable_inv (s : Session) : reachable s -> Inv s.
Proof.
  intros (st & turns & <-). apply session_run_inv. split; session.
  - exists []. split; [now rewrite app_nil_r | constructor].
  - intros d Hp. discriminate Hp.
Qed.

Lemma session_reachable_turn (now : Z) (t : Turn) (s : Session) :
  reachable s -> reachable (turn now t s).
Proof.
  intros (st & turns & <-). exists st, (turns ++ [(now, t)]).
  generalize (loaded st).
  induction turns as [|[n t'] turns IH]; intros s0; [reflexivity |].
  cbn [app run]. apply IH.
Qed.

(** *** A promise of showLoginDialog from the call to the end *)

Lemma call_keeps_settled (now : Z) (sig : Signal) (l : Listener) (d : nat)
  (o : Outcome bool) (s : Session) :
  dialogs s !! d = Some (Some o) ->
  dialogs (call now sig l s) !! d = Some (Some o).
Proof.
  intros Hd.
  assert (Hs : forall d' o', dialogs (settle_dialog d' o' s) !! d = Some (Some o)).
  { intros d' o'. destruct (settle_cases d' d o' s) as [E|(_ & Hp & _)]; congruence. }
  destruct l, sig; cbn [call]; session; first [exact Hd | apply Hs].
Qed.

Lemma calls_keep_settled (now : Z) (sig : Signal) (rs : list Registration) (d : nat)
  (o : Outcome bool) :
  forall s,
    dialogs s !! d = Some (Some o) ->
    dialogs (fold_left (fun s' r => call now sig (listener r) s') rs s) !! d
    = Some (Some o).
Proof.
  induction rs as [|r rs IH]; intros s Hd; [exact Hd |].
  cbn [fold_left]. apply IH. now apply call_keeps_settled.
Qed.

Lemma settled_turn (now : Z) (t : Turn) (d : nat) (o : Outcome bool) (s : Session) :
  dialogs s !! d = Some (Some o) ->
  dialogs (turn now t s) !! d = Some (Some o).
Proof.
  intros Hd. destruct t as [|sig|i]; cbn [turn].
  - unfold showLoginDialog. cbn [fst]. session.
    rewrite lookup_app_l; [exact Hd | now apply lookup_lt_Some in Hd].
  - unfold emit. now apply calls_keep_settled.
  - exact Hd.
Qed.

Lemma settled_run (turns : list (Z * Turn)) (d : nat) (o : Outcome bool) :
  forall s,
    dialogs s !! d = Some (Some o) ->
    dialogs (run turns s) !! d = Some (Some o).
Proof.
  induction turns as [|[now t] turns IH]; intros s Hd; [exact Hd |].
  cbn [run]. apply IH. now apply settled_turn.
Qed.

Lemma pending_run (turns : list (Z * Turn)) (d : nat) :
  forall s,
    Inv s ->
    no_verdict turns = true ->
    dialogs s !! d = Some None ->
    dialogs (run turns s) !! d = Some None.
Proof.
  induction turns as [|[now t] turns IH]; intros s HI Hno Hp; [exact Hp |].
  cbn [no_verdict forallb snd] in Hno. apply andb_prop in Hno as [Ht Hno].
  cbn [run]. apply IH; [now apply session_turn_inv | exact Hno |].
  destruct t as [|sig|i]; cbn [turn].
  - unfold showLoginDialog. cbn [fst]. session.
    rewrite lookup_app_l; [exact Hp | now apply lookup_lt_Some in Hp].
  - destruct (emit_settles_or_keeps now sig d s HI) as [E|(_ & o & Hv & _)];
      [congruence |].
    rewrite Hv in Ht. discriminate Ht.
  - exact Hp.
Qed.

(** X12: the promise that showLoginDialog() returns.  The call shows the
    widget; the promise stays pending through logins, logouts, turns of
    the token store and further calls of showLoginDialog; the first of
    'user_data_loaded', 'hide', 'unrecoverable_error' and
    'authorization_error' to be emitted settles it, with true, with
    false, or rejected with what was emitted; and whatever comes later
    leaves it as it is. *)
Theorem showLoginDialog_settles_once
  (s : Session) (turns later : list (Z * Turn)) (now : Z) (sig : Signal)
  (o : Outcome bool) :
  reachable s ->
  no_verdict turns = true ->
  verdict sig = Some o ->
  let s1 := fst (showLoginDialog s) in
  let dialog := snd (showLoginDialog s) in
  let s2 := run turns s1 in
  let s3 := emit now sig s2 in
  lock s1 = lock s ++ [Show]
  /\ dialogs s2 !! dialog = Some None
  /\ dialogs s3 !! dialog = Some (Some o)
  /\ dialogs (run later s3) !! dialog = Some (Some o).
Proof.
  intros Hreach Hno Hv. cbv zeta.
  pose proof (showLoginDialog_inv s (session_reachable_inv s Hreach)) as HI1.
  assert (Hp1 : dialogs (fst (showLoginDialog s)) !! snd (showLoginDialog s) = Some None).
  { unfold showLoginDialog. cbn [fst snd]. session.
    rewrite lookup_app_r by lia. now rewrite Nat.sub_diag. }
  pose proof (pending_run turns _ _ HI1 Hno Hp1) as Hp2.
  pose proof (emit_settles now sig _ o _ (session_run_inv turns _ HI1) Hp2 Hv) as Hp3.
  split; [reflexivity |]. split; [exact Hp2 |]. split; [exact Hp3 |].
  now apply settled_run.
Qed.

Lemma showLoginDialog_settles_once_witness :
  dialogs (run [(5%Z, Emit SigHide)]
             (emit 4 (SigAuthorizationError "denied")
                (run [(1%Z, Emit (SigAuthenticated "A" "R" (Num.Finite 3600)));
                      (2%Z, ShowLoginDialog); (3%Z, Emit SigLogout)]
                     (fst (showLoginDialog (loaded logged_out_state))))))
  !! 0 = Some (Some (Rejected "denied"%string)).
Proof.
  apply (showLoginDialog_settles_once (loaded logged_out_state)
           [(1%Z, Emit (SigAuthenticated "A" "R" (Num.Finite 3600)));
            (2%Z, ShowLoginDialog); (3%Z, Emit SigLogout)]
           [(5%Z, Emit SigHide)] 4 (SigAuthorizationError "denied")
           (Rejected "denied"%string));
    [now exists logged_out_state, [] | reflexivity | reflexivity].
Defined.

(** *** Events and the rest of the session *)

Lemma filter_none (f : Registration -> bool) (l : list Registration) :
  (forall r, In r l -> f r = false) -> List.filter f l = [].
Proof.
  induction l as [|x l IH]; intros H; [reflexivity |].
  cbn [List.filter]. rewrite (H x (or_introl eq_refl)). apply IH.
  intros r Hr. apply H. now right.
Qed.

Lemma filter_all (f : Registration -> bool) (l : list Registration) :
  (forall r, In r l -> f r = true) -> List.filter f l = l.
Proof.
  induction l as [|x l IH]; intros H; [reflexivity |].
  cbn [List.filter]. rewrite (H x (or_introl eq_refl)). f_equal. apply IH.
  intros r Hr. apply H. now right.
Qed.

(** A listener of a dialog is registered once, for one of the four
    events that settle a dialog, and touches the promise alone. *)
Lemma placed_listener (n : nat) (r : Registration) :
  placed n r ->
  once r = true
  /\ registered_for "authenticated" r = false
  /\ registered_for "logout" r = false
  /\ forall now sig s,
       lock (call now sig (listener r) s) = lock s
       /\ store (call now sig (listener r) s) = store s.
Proof.
  intros (d & _ & Hr). cbn in Hr.
  destruct Hr as [<-|[<-|[<-|[<-|[]]]]]; (split; [reflexivity |]);
    (split; [reflexivity |]); (split; [reflexivity |]);
    intros now sig s; cbn [listener]; destruct sig; cbn [call];
    first [now split | split; apply settle_dialog_rest].
Qed.

Lemma calls_placed_rest (now : Z) (sig : Signal) (n : nat) (rs : list Registration) :
  (forall r, In r rs -> placed n r) ->
  forall s,
    lock (fold_left (fun s' r => call now sig (listener r) s') rs s) = lock s
    /\ store (fold_left (fun s' r => call now sig (listener r) s') rs s) = store s.
Proof.
  induction rs as [|r rs IH]; intros Hrs s; [now split |].
  cbn [fold_left].
  destruct (IH (fun r' Hr' => Hrs r' (or_intror Hr')) (call now sig (listener r) s))
    as [-> ->].
  apply (placed_listener n r), Hrs. now left.
Qed.

(** X13: a login and a logout reach the token store and nothing else.
    In every session, whatever dialogs are open, emitting
    'authenticated' runs the listener of lines 111-117 on the store, and
    logOut() runs setTokens(null); no promise of a dialog is settled, no
    listener is removed and the widget is not called. *)
Theorem login_and_logout_reach_the_store (s : Session) (now : Z) :
  reachable s ->
  (forall accessToken refreshToken expiresIn,
      emit now (SigAuthenticated accessToken refreshToken expiresIn) s
      = mkSession (listeners s) (dialogs s) (lock s)
                  (authenticated now accessToken refreshToken expiresIn (store s)))
  /\ logOut now s
     = mkSession (listeners s) (dialogs s) (lock s) (setTokens now None (store s)).
Proof.
  intros Hreach.
  destruct (inv_listeners s (session_reachable_inv s Hreach)) as (onces & E & Hall).
  rewrite Forall_forall in Hall.
  assert (Hp : forall r, In r onces -> placed (length (dialogs s)) r)
    by (intros r Hr; now apply Hall, list_elem_of_In).
  split; [intros a rt e |]; unfold logOut, emit; rewrite E, !filter_app_list;
    cbn [event_of];
    (rewrite (filter_none _ onces)
       by (intros r Hr; now apply (placed_listener _ r (Hp r Hr))));
    (rewrite (filter_all _ onces)
       by (intros r Hr; destruct (placed_listener _ r (Hp r Hr)) as (_ & H1 & H2 & _);
           rewrite ?H1, ?H2; now rewrite andb_false_r));
    reflexivity.
Qed.

Lemma login_and_logout_reach_the_store_witness :
  tokens (store (logOut 5 (fst (showLoginDialog (loaded example_state))))) = None
  /\ dialogs (logOut 5 (fst (showLoginDialog (loaded example_state)))) = [None].
Proof.
  rewrite (proj2 (login_and_logout_reach_the_store
                    (fst (showLoginDialog (loaded example_state))) 5
                    (session_reachable_turn 0 ShowLoginDialog (loaded example_state)
                       (ex_intro _ example_state (ex_intro _ [] eq_refl))))).
  split; reflexivity.
Defined.

(** X14: the four events of a dialog leave the token store alone, and
    the widget is told to hide exactly when 'user_data_loaded' is
    emitted: once for each emission, whether a dialog is open or not. *)
Theorem user_data_loaded_hides_the_widget (s : Session) (now : Z) (sig : Signal)
  (o : Outcome bool) :
  reachable s ->
  verdict sig = Some o ->
  store (emit now sig s) = store s
  /\ lock (emit now sig s)
     = lock s ++ match sig with SigUserDataLoaded => [Hide] | _ => [] end.
Proof.
  intros Hreach Hv.
  destruct (inv_listeners s (session_reachable_inv s Hreach)) as (onces & E & Hall).
  rewrite Forall_forall in Hall.
  assert (Hp : forall r,
            In r (List.filter (registered_for (event_of sig)) onces) ->
            placed (length (dialogs s)) r).
  { intros r Hr. apply filter_In in Hr as [Hr _]. now apply Hall, list_elem_of_In. }
  unfold emit. rewrite E, !filter_app_list, fold_left_app.
  match goal with |- context [fold_left ?f (List.filter ?g onces) ?s0] =>
    destruct (calls_placed_rest now sig (length (dialogs s))
                (List.filter g onces) Hp s0) as [-> ->] end.
  destruct sig; try discriminate Hv; cbn; split; try reflexivity;
    now rewrite app_nil_r.
Qed.

Lemma user_data_loaded_hides_the_widget_witness :
  lock (emit 5 SigUserDataLoaded (loaded example_state)) = [Hide].
Proof.
  apply (user_data_loaded_hides_the_widget (loaded example_state) 5 SigUserDataLoaded
           (Resolved true));
    [now exists example_state, [] | reflexivity].
Defined.

(** *** Listeners that stay behind *)

Lemma listener_stays (turns : list (Z * Turn)) (r : Registration) :
  forall s,
    not_emitted (event r) turns = true ->
    In r (listeners s) ->
    In r (listeners (run turns s)).
Proof.
  induction turns as [|[now t] turns IH]; intros s Hno Hr; [exact Hr |].
  cbn [not_emitted forallb snd] in Hno. apply andb_prop in Hno as [Ht Hno].
  cbn [run]. apply IH; [exact Hno |].
  destruct t as [|sig|i]; cbn [turn].
  - unfold showLoginDialog. cbn [fst]. session. apply in_or_app. now left.
  - rewrite (proj1 (emit_rest now sig s)). apply filter_In. split; [exact Hr |].
    unfold registered_for. apply negb_true_iff in Ht. rewrite Ht.
    now rewrite andb_false_r.
  - exact Hr.
Qed.

(** X15: the event that settles a dialog removes only the listener it
    called.  The three other listeners of that promise stay registered
    on [loginEvents], each until its own event is emitted, although the
    promise is settled and they can do nothing any more. *)
Theorem settled_dialog_leaves_listeners
  (s : Session) (now : Z) (sig : Signal) (o : Outcome bool)
  (turns : list (Z * Turn)) (r : Registration) :
  verdict sig = Some o ->
  let s1 := fst (showLoginDialog s) in
  let dialog := snd (showLoginDialog s) in
  length (left_behind sig dialog) = 3
  /\ (In r (left_behind sig dialog) ->
      not_emitted (event r) turns = true ->
      In r (listeners (run turns (emit now sig s1)))).
Proof.
  intros Hv. cbv zeta. split.
  - destruct sig; try discriminate Hv; reflexivity.
  - intros Hr Hno. apply listener_stays; [exact Hno |].
    rewrite (proj1 (emit_rest now sig _)).
    unfold left_behind in Hr. apply filter_In in Hr as [Hr He].
    apply filter_In. split.
    + unfold showLoginDialog. cbn [fst snd] in *. session. apply in_or_app. now right.
    + apply negb_true_iff in He. rewrite He. now rewrite andb_false_r.
Qed.

Lemma settled_dialog_leaves_listeners_witness :
  In (mkRegistration "user_data_loaded" true (Resolve 0 true))
     (listeners (run [(6%Z, ShowLoginDialog); (7%Z, Emit SigHide)]
                     (emit 5 SigHide (fst (showLoginDialog (loaded example_state)))))).
Proof.
  apply (proj2 (settled_dialog_leaves_listeners (loaded example_state) 5 SigHide
                  (Resolved false) [(6%Z, ShowLoginDialog); (7%Z, Emit SigHide)]
                  (mkRegistration "user_data_loaded" true (Resolve 0 true))
                  eq_refl));
    [cbn; tauto | reflexivity].
Defined.

End LoginFacts.

(** ** The sidebar *)

Module SidebarFacts.
Import Sidebar.

(** X16: the sidebar shows the pages in their order, each under its own
    name and icon, and a click on the item of page [i] hands [i] to
    onSelectPage.  The item of page [i] is shown selected exactly when
    selectedPageIndex is the number [i]: so at most one item is
    selected, and none is when the index is negative, not below the
    number of pages, or not a finite number. *)
Theorem sidebar_items (selectedPageIndex : Num.t) (pages : list Page) :
  length (items selectedPageIndex pages) = length pages
  /\ (forall i page,
        pages !! i = Some page ->
        items selectedPageIndex pages !! i
        = Some (mkItem (is_selected i selectedPageIndex) i (icon page) (name page)))
  /\ (forall i item,
        items selectedPageIndex pages !! i = Some item ->
        (selected item = true <-> selectedPageIndex = Num.Finite (Z.of_nat i)))
  /\ (forall i j x y,
        items selectedPageIndex pages !! i = Some x ->
        items selectedPageIndex pages !! j = Some y ->
        selected x = true -> selected y = true -> i = j).
Proof.
  assert (Hsel : forall i item,
            items selectedPageIndex pages !! i = Some item ->
            (selected item = true <-> selectedPageIndex = Num.Finite (Z.of_nat i))).
  { intros i item Hi. unfold items in Hi. rewrite list_lookup_imap in Hi.
    destruct (pages !! i) as [page|]; [| discriminate Hi].
    injection Hi as <-. cbn [selected]. unfold is_selected.
    destruct selectedPageIndex as [z| | |]; try (split; discriminate).
    rewrite Z.eqb_eq. split; [now intros -> | now intros [= ->]]. }
  split; [apply length_imap |]. split; [| split; [exact Hsel |]].
  - intros i page Hi. unfold items. rewrite list_lookup_imap, Hi. reflexivity.
  - intros i j x y Hi Hj Hx Hy.
    apply (Hsel i x Hi) in Hx. apply (Hsel j y Hj) in Hy.
    rewrite Hx in Hy. injection Hy as Hy. lia.
Qed.

Lemma sidebar_items_witness :
  items (Num.Finite 1) [mkPage "Intercept" ["fas"; "plug"]; mkPage "View" ["fas"; "search"]]
  !! 1 = Some (mkItem true 1 ["fas"; "search"] "View").
Proof.
  apply (proj1 (proj2 (sidebar_items (Num.Finite 1)
                         [mkPage "Intercept" ["fas"; "plug"];
                          mkPage "View" ["fas"; "search"]])) 1
               (mkPage "View" ["fas"; "search"])).
  reflexivity.
Defined.

End SidebarFacts.
